(** * Modal dialog controller and inline form validation (src/js/login.js)

    A shallow embedding of the browser-side controller: the field validator
    with its three regular expressions, the focusable-set computation, and
    the open/close life cycle of the modal dialogs, where the two [async]
    functions are split at their [await] into the part that runs on the
    request and the part that runs once the awaited promise is resolved by
    the [animationend] listener. *)

From Stdlib Require Import NArith Ascii String.
From stdpp Require Import base strings list gmap.

Local Open Scope string_scope.
Local Open Scope list_scope.
Local Open Scope nat_scope.

(** ** JavaScript strings

    A JavaScript string is a sequence of UTF-16 code units.  Literals of the
    source that are plain ASCII are written as Rocq strings and converted
    with [codes]. *)

Definition jsstring := list N.

Definition codes (s : string) : jsstring :=
  map N_of_ascii (list_ascii_of_string s).

Definition between (lo hi c : N) : bool := (N.leb lo c && N.leb c hi)%bool.

(** WhiteSpace and LineTerminator code units of ECMAScript: the set stripped
    by [String.prototype.trim] and matched by [\s]. *)
Definition is_space (c : N) : bool :=
  (between 9 13 c || N.eqb c 32 || N.eqb c 160 || N.eqb c 5760
   || between 8192 8202 c || N.eqb c 8232 || N.eqb c 8233 || N.eqb c 8239
   || N.eqb c 8287 || N.eqb c 12288 || N.eqb c 65279)%bool.

Fixpoint trimStart (s : jsstring) : jsstring :=
  match s with
  | c :: s' => if is_space c then trimStart s' else s
  | [] => []
  end.

Definition trimEnd (s : jsstring) : jsstring := rev (trimStart (rev s)).

Definition trim (s : jsstring) : jsstring := trimEnd (trimStart s).

(** ** Regular expressions

    The fragment of the regular-expression syntax used by [re]: a
    pattern is a sequence of items, each followed by the rest of the pattern. *)

Inductive regex :=
| Accept                                   (* end of the pattern *)
| Bos (rest : regex)                       (* ^ *)
| Eos (rest : regex)                       (* $ *)
| Ahead (look : regex) (rest : regex)      (* (?=look) *)
| Cls (p : N → bool) (lo : nat) (hi : option nat) (rest : regex).
                                           (* class{lo,hi}; hi = None: no bound *)

(** [rep p k lo hi bos s]: some number n of leading code units of [s], with
    lo <= n <= hi, all in the class [p], can be consumed so that the
    continuation [k] accepts what is left.  [bos] tells whether the current
    position is the start of the input. *)
Fixpoint rep (p : N → bool) (k : bool → jsstring → bool)
    (lo : nat) (hi : option nat) (bos : bool) (s : jsstring) : bool :=
  (match lo with O => k bos s | S _ => false end)
  || match s with
     | c :: s' =>
         p c
         && match hi with Some O => false | _ => true end
         && rep p k (pred lo) (pred <$> hi) false s'
     | [] => false
     end.

Fixpoint matchHere (r : regex) (bos : bool) (s : jsstring) : bool :=
  match r with
  | Accept => true
  | Bos r' => bos && matchHere r' bos s
  | Eos r' => match s with [] => matchHere r' bos [] | _ :: _ => false end
  | Ahead a r' => matchHere a bos s && matchHere r' bos s
  | Cls p lo hi r' => rep p (matchHere r') lo hi bos s
  end.

(** A match may start at any later index as well. *)
Fixpoint matchLater (r : regex) (s : jsstring) : bool :=
  match s with
  | [] => false
  | _ :: s' => matchHere r false s' || matchLater r s'
  end.

(** [RegExp.prototype.test] (no flags). *)
Definition test (r : regex) (s : jsstring) : bool :=
  matchHere r true s || matchLater r s.

(** Character classes of the three patterns. *)
Definition is_upper (c : N) : bool := between 65 90 c.
Definition is_lower (c : N) : bool := between 97 122 c.
Definition is_letter (c : N) : bool := is_upper c || is_lower c.
Definition is_digit (c : N) : bool := between 48 57 c.            (* \d *)
Definition is_char (a : ascii) (c : N) : bool := N.eqb c (N_of_ascii a).

(* [a-zA-Z0-9_] *)
Definition cls_username (c : N) : bool :=
  is_lower c || is_upper c || is_digit c || is_char "_" c.

(* [^\s@] *)
Definition cls_not_space_at (c : N) : bool :=
  negb (is_space c || is_char "@" c).

(* . without the s flag: anything but a line terminator *)
Definition cls_dot (c : N) : bool :=
  negb (N.eqb c 10 || N.eqb c 13 || N.eqb c 8232 || N.eqb c 8233).

(* the punctuation listed in re.strong; code unit 34 is the double quote *)
Definition strong_punctuation : jsstring :=
  (codes "!@#$%^&*()_+-={}[]:;" ++ [34%N] ++ codes "'<>?,./").

(* the class of re.strong: A-Z, a-z, \d and the listed punctuation *)
Definition cls_strong (c : N) : bool :=
  is_upper c || is_lower c || is_digit c
  || existsb (N.eqb c) strong_punctuation.

Definition lit (a : ascii) (rest : regex) : regex :=
  Cls (is_char a) 1 (Some 1) rest.

Module re.
(* /^[a-zA-Z0-9_]{3,20}$/ *)
Definition username : regex :=
  Bos (Cls cls_username 3 (Some 20) (Eos Accept)).

(* /^[^\s@]+@[^\s@]+\.[^\s@]{2,}$/ *)
Definition email : regex :=
  Bos (Cls cls_not_space_at 1 None
      (lit "@"
      (Cls cls_not_space_at 1 None
      (lit "."
      (Cls cls_not_space_at 2 None
      (Eos Accept)))))).

(* /^(?=.*[A-Za-z])(?=.*\d)[class of re.strong]{6,}$/ *)
Definition strong : regex :=
  Bos (Ahead (Cls cls_dot 0 None (Cls is_letter 1 (Some 1) Accept))
      (Ahead (Cls cls_dot 0 None (Cls is_digit 1 (Some 1) Accept))
      (Cls cls_strong 6 None
      (Eos Accept)))).
End re.

(** ** Form fields and the error presenter *)

(** [classList]: an ordered set of tokens. *)
Definition classList := list string.

Definition classList_add (tok : string) (cl : classList) : classList :=
  if bool_decide (tok ∈ cl) then cl else (cl ++ [tok]).

Definition classList_remove (tok : string) (cl : classList) : classList :=
  filter (λ t, t ≠ tok) cl.

(** The [small.field__error] element of a field.  Message texts are kept as
    the string literals of the source. *)
Record ErrorEl := {
  err_id : jsstring;
  err_textContent : string;
  err_hidden : bool;
}.

(** The closest [.field] ancestor of an input: its class list and the
    result of [querySelector('.field__error')] on it. *)
Record FieldGroup := {
  field_classList : classList;
  field_error : option ErrorEl;
}.

Record Input := {
  name : jsstring;
  value : jsstring;
  aria_invalid : option string;
  aria_describedby : option jsstring;
  closest_field : option FieldGroup;
}.

(** [rnd] stands for [Math.random().toString(36).slice(2)]. *)
Definition ensureErrorEl (rnd : jsstring) (input : Input) : ErrorEl :=
  let err :=
    match closest_field input ≫= field_error with
    | Some err => err
    | None => {| err_id := []; err_textContent := ""; err_hidden := true |}
    end in
  match err_id err with
  | [] =>
      {| err_id := match name input with
                   | _ :: _ => (codes "err-" ++ name input)
                   | [] => (codes "err-" ++ rnd)
                   end;
         err_textContent := err_textContent err;
         err_hidden := err_hidden err |}
  | _ :: _ => err
  end.

Definition setError (rnd : jsstring) (input : Input) (msg : string) : Input :=
  let err := ensureErrorEl rnd input in
  let err := {| err_id := err_id err; err_textContent := msg;
                err_hidden := false |} in
  {| name := name input;
     value := value input;
     aria_invalid := Some "true";
     aria_describedby := Some (err_id err);
     closest_field :=
       (λ g, {| field_classList := classList_add "field--error" (field_classList g);
                field_error := Some err |}) <$> closest_field input |}.

Definition clearError (input : Input) : Input :=
  {| name := name input;
     value := value input;
     aria_invalid := Some "false";
     aria_describedby := aria_describedby input;
     closest_field :=
       (λ g, {| field_classList :=
                  classList_remove "field--error" (field_classList g);
                field_error :=
                  (λ err, {| err_id := err_id err; err_textContent := "";
                             err_hidden := true |}) <$> field_error g |})
       <$> closest_field input |}.

(** The empty string is the only falsy string. *)
Definition falsy (s : jsstring) : bool :=
  match s with [] => true | _ :: _ => false end.

Definition jsstring_eqb (a : jsstring) (b : string) : bool :=
  bool_decide (a = codes b).

(** The three [if] blocks run in sequence; a block that does not return
    falls through to the next one, and the last statement clears the error. *)
Definition validateField (rnd : jsstring) (input : Input) : Input :=
  let name := name input in
  let val := trim (value input) in
  let after_password := clearError input in
  let after_email :=
    if jsstring_eqb name "password" then
      if falsy val then setError rnd input "Введіть пароль"
      else if negb (test re.strong val) then
        setError rnd input "Мінімум 6 символів, літера і цифра"
      else after_password
    else after_password in
  let after_username :=
    if jsstring_eqb name "email" then
      if falsy val then setError rnd input "Введіть email"
      else if negb (test re.email val) then
        setError rnd input "Невірний формат email"
      else after_email
    else after_email in
  if jsstring_eqb name "username" then
    if falsy val then setError rnd input "Введіть ім’я користувача"
    else if negb (test re.username val) then
      setError rnd input "3–20 символів, латиниця/цифри/_"
    else after_username
  else after_username.

(** The verdict as the submit handler reads it back:
    [inp.getAttribute('aria-invalid') === 'true']. *)
Definition invalid (input : Input) : bool :=
  bool_decide (aria_invalid input = Some "true").

(** The message shown for the field, when its error element is visible. *)
Definition shown_message (input : Input) : option string :=
  err ← closest_field input ≫= field_error;
  if err_hidden err then None else Some (err_textContent err).

(** A text input inside a [.field] group that has no error element yet. *)
Definition text_input (n v : string) : Input :=
  {| name := codes n; value := codes v;
     aria_invalid := Some "false"; aria_describedby := None;
     closest_field :=
       Some {| field_classList := ["field"]; field_error := None |} |}.

(** The same input as an earlier validation that failed left it: marked
    invalid, its group marked and showing the message. *)
Definition failed_input (n v : string) (msg : string) : Input :=
  {| name := codes n; value := codes v;
     aria_invalid := Some "true";
     aria_describedby := Some (codes "err-" ++ codes n);
     closest_field :=
       Some {| field_classList := ["field"; "field--error"];
               field_error :=
                 Some {| err_id := codes "err-" ++ codes n;
                         err_textContent := msg; err_hidden := false |} |} |}.

(** ** DOM elements and the focusable set *)

(** Identity of a DOM element. *)
Definition Node := nat.

Record Element := {
  el_node : Node;
  tagName : string;                    (* lower-case local name *)
  attributes : gmap string string;
}.

Definition hasAttribute (a : string) (el : Element) : bool :=
  bool_decide (is_Some (attributes el !! a)).

(** [None] is the [null] returned for a missing attribute. *)
Definition getAttribute (a : string) (el : Element) : option string :=
  attributes el !! a.

(** Truthiness of [getAttribute]'s result: [null] and the empty string are
    falsy, every other string is truthy. *)
Definition truthy (v : option string) : bool :=
  match v with
  | None => false
  | Some EmptyString => false
  | Some (String _ _) => true
  end.

(** The selector
    button, [href], input, select, textarea, [tabindex]:not([tabindex=-1]). *)
Definition selector_focusable (el : Element) : bool :=
  String.eqb (tagName el) "button"
  || hasAttribute "href" el
  || String.eqb (tagName el) "input"
  || String.eqb (tagName el) "select"
  || String.eqb (tagName el) "textarea"
  || (hasAttribute "tabindex" el
      && negb (bool_decide (getAttribute "tabindex" el = Some "-1"))).

(** [qsa(selector, root)]: the descendants of the root that match, in
    document order; a root is given by the list of its descendants. *)
Definition qsa (selector : Element → bool) (root : list Element)
    : list Element :=
  List.filter selector root.

Definition getFocusables (root : list Element) : list Element :=
  List.filter
    (λ el, negb (hasAttribute "disabled" el)
           && negb (truthy (getAttribute "aria-hidden" el)))
    (qsa selector_focusable root).

(** ** Dialog state *)

(** Which of [animateOpen] and [animateClose] created an [onEnd] closure;
    it also tells which suspended function awaits the promise. *)
Inductive Kind := Opening | Closing.

(** An [onEnd] closure registered for [animationend]. *)
Record Listener := { l_id : nat; l_kind : Kind }.

(** A focus-trap closure with the [first] and [last] it captured
    ([None] is [undefined]). *)
Record Trap := {
  trap_id : nat;
  trap_first : option Node;
  trap_last : option Node;
}.

(** A modal container element. *)
Record Modal := {
  hidden : bool;
  classes : classList;
  animationend : list Listener;        (* in registration order *)
  keydown : list Trap;                 (* in registration order *)
  _trap : option Trap;                 (* the expando property *)
  descendants : list Element;          (* in document order *)
}.

(** What the controller does, in program order (ghost state: the program
    never reads it back). *)
Inductive Effect :=
| ActiveSet (m : Node)                 (* activeModal = modal *)
| ActiveCleared                        (* activeModal = null *)
| AnimationStarted (m : Node) (k : Kind) (* is-opening / is-closing added *)
| Resolved (m : Node) (k : Kind)       (* resolve() in onEnd *)
| ScrollLocked                         (* overflow = 'hidden' *)
| ScrollUnlocked                       (* overflow = '' *)
| HeaderHidden                         (* header.setAttribute('aria-hidden', 'true') *)
| HeaderShown                          (* header.removeAttribute('aria-hidden') *)
| TrapInstalled (m : Node) (t : Trap)  (* addEventListener('keydown', modal._trap) *)
| TrapRemoved (m : Node) (t : Trap)    (* removeEventListener('keydown', m._trap) *)
| Focused (n : Node)                   (* n.focus() *)
| DefaultPrevented                     (* e.preventDefault() *)
| TypeErrorThrown.                     (* a call of a method that is undefined *)

(** The page: which containers [qs] found for the two keys of [modals]
    ([None] is [null]), whether [#site-header] exists, which elements the
    browser lets take focus given the containers as they are (a hidden
    input, for one, never does, and whether a descendant of a container
    that is hidden does is up to the style sheet), and the identity of the
    first of the built-in objects that an object literal inherits from
    [Object.prototype]. *)
Record Page := {
  register_window : option Node;
  login_window : option Node;
  has_header : bool;
  takes_focus : gmap Node Modal → Node → bool;
  builtins : Node;
}.

(** The property names that every object literal inherits from
    [Object.prototype].  Each of them names an object (a function, or the
    prototype itself for [__proto__]): a truthy value that is not an
    element. *)
Definition Object_prototype : list string :=
  [ "constructor"; "__defineGetter__"; "__defineSetter__"; "hasOwnProperty";
    "__lookupGetter__"; "__lookupSetter__"; "isPrototypeOf";
    "propertyIsEnumerable"; "toString"; "valueOf"; "__proto__";
    "toLocaleString" ].

Fixpoint position (key : string) (names : list string) : option nat :=
  match names with
  | [] => None
  | n :: names' =>
      if String.eqb key n then Some 0 else S <$> position key names'
  end.

(** [modals[key]] on the object literal with the keys register and login:
    the own property when the key is one of the two, and otherwise what the
    prototype chain yields, the built-in object of that name or [undefined]
    ([None]). *)
Definition modals (page : Page) (key : string) : option Node :=
  if String.eqb key "register" then register_window page
  else if String.eqb key "login" then login_window page
  else (λ i, builtins page + i) <$> position key Object_prototype.

Record State := {
  activeModal : option Node;
  overflow : string;                   (* document.documentElement.style.overflow *)
  header_aria_hidden : option string;  (* attribute of #site-header *)
  activeElement : option Node;         (* document.activeElement *)
  elements : gmap Node Modal;          (* the modal containers; an object
                                          that is not among them is not an
                                          element *)
  next_id : nat;                       (* identity of the next closure *)
  trace : list Effect;                 (* newest first *)
}.

Definition emit (e : Effect) (s : State) : State :=
  {| activeModal := activeModal s; overflow := overflow s;
     header_aria_hidden := header_aria_hidden s;
     activeElement := activeElement s; elements := elements s;
     next_id := next_id s; trace := e :: trace s |}.

Definition set_activeModal (v : option Node) (s : State) : State :=
  {| activeModal := v; overflow := overflow s;
     header_aria_hidden := header_aria_hidden s;
     activeElement := activeElement s; elements := elements s;
     next_id := next_id s; trace := trace s |}.

Definition set_overflow (v : string) (s : State) : State :=
  {| activeModal := activeModal s; overflow := v;
     header_aria_hidden := header_aria_hidden s;
     activeElement := activeElement s; elements := elements s;
     next_id := next_id s; trace := trace s |}.

Definition set_header_aria_hidden (v : option string) (s : State) : State :=
  {| activeModal := activeModal s; overflow := overflow s;
     header_aria_hidden := v;
     activeElement := activeElement s; elements := elements s;
     next_id := next_id s; trace := trace s |}.

Definition set_activeElement (v : option Node) (s : State) : State :=
  {| activeModal := activeModal s; overflow := overflow s;
     header_aria_hidden := header_aria_hidden s;
     activeElement := v; elements := elements s;
     next_id := next_id s; trace := trace s |}.

Definition fresh (s : State) : State :=
  {| activeModal := activeModal s; overflow := overflow s;
     header_aria_hidden := header_aria_hidden s;
     activeElement := activeElement s; elements := elements s;
     next_id := S (next_id s); trace := trace s |}.

(** Mutation of the modal element [m]. *)
Definition update (m : Node) (f : Modal → Modal) (s : State) : State :=
  {| activeModal := activeModal s; overflow := overflow s;
     header_aria_hidden := header_aria_hidden s;
     activeElement := activeElement s;
     elements := alter f m (elements s);
     next_id := next_id s; trace := trace s |}.

Definition set_hidden (v : bool) (el : Modal) : Modal :=
  {| hidden := v; classes := classes el; animationend := animationend el;
     keydown := keydown el; _trap := _trap el;
     descendants := descendants el |}.

Definition set_classes (f : classList → classList) (el : Modal) : Modal :=
  {| hidden := hidden el; classes := f (classes el);
     animationend := animationend el;
     keydown := keydown el; _trap := _trap el;
     descendants := descendants el |}.

Definition set_animationend (f : list Listener → list Listener) (el : Modal)
    : Modal :=
  {| hidden := hidden el; classes := classes el;
     animationend := f (animationend el);
     keydown := keydown el; _trap := _trap el;
     descendants := descendants el |}.

Definition set_keydown (f : list Trap → list Trap) (el : Modal) : Modal :=
  {| hidden := hidden el; classes := classes el;
     animationend := animationend el;
     keydown := f (keydown el); _trap := _trap el;
     descendants := descendants el |}.

Definition set_trap (t : Trap) (el : Modal) : Modal :=
  {| hidden := hidden el; classes := classes el;
     animationend := animationend el;
     keydown := keydown el; _trap := Some t;
     descendants := descendants el |}.

(** Reads of the modal element [m]. *)
Definition listeners (m : Node) (s : State) : list Listener :=
  from_option animationend [] (elements s !! m).

Definition traps (m : Node) (s : State) : list Trap :=
  from_option keydown [] (elements s !! m).

Definition class_list (m : Node) (s : State) : classList :=
  from_option classes [] (elements s !! m).

Definition is_hidden (m : Node) (s : State) : option bool :=
  hidden <$> elements s !! m.

(** ** Animations *)

(** [animateOpen(modal)] up to the creation of the promise: the [onEnd]
    closure it registers resolves the promise.  On an object that is not an
    element, [modal.classList] is undefined and the call of [remove] throws
    (the assignment to [modal.hidden] before it only adds a property to that
    object). *)
Definition animateOpen (modal : Node) (s : State) : State :=
  match elements s !! modal with
  | None => emit TypeErrorThrown s
  | Some _ =>
      let s := update modal (set_hidden false) s in
      let s := update modal (set_classes (classList_remove "is-closing")) s in
      let s := update modal (set_classes (classList_add "is-opening")) s in
      let s := emit (AnimationStarted modal Opening) s in
      let onEnd := {| l_id := next_id s; l_kind := Opening |} in
      let s := fresh s in
      update modal (set_animationend (λ ls, ls ++ [onEnd])) s
  end.

Definition animateClose (modal : Node) (s : State) : State :=
  match elements s !! modal with
  | None => emit TypeErrorThrown s
  | Some _ =>
      let s := update modal (set_classes (classList_remove "is-opening")) s in
      let s := update modal (set_classes (classList_add "is-closing")) s in
      let s := emit (AnimationStarted modal Closing) s in
      let onEnd := {| l_id := next_id s; l_kind := Closing |} in
      let s := fresh s in
      update modal (set_animationend (λ ls, ls ++ [onEnd])) s
  end.

(** The body of [onEnd] once the target check has passed. *)
Definition onEnd (modal : Node) (l : Listener) (s : State) : State :=
  let s :=
    match l_kind l with
    | Opening =>
        update modal (set_classes (classList_remove "is-opening")) s
    | Closing =>
        let s := update modal (set_classes (classList_remove "is-closing")) s in
        update modal (set_hidden true) s
    end in
  let s :=
    update modal
      (set_animationend (filter (λ l', l_id l' ≠ l_id l))) s in
  emit (Resolved modal (l_kind l)) s.

(** ** Open / Close *)

(** [document.activeElement === x], where the left side is an element or
    [null] and [x] is an element or [undefined]. *)
Definition same_element (active : option Node) (x : option Node) : bool :=
  match active, x with
  | Some a, Some b => Nat.eqb a b
  | _, _ => false
  end.

(** [n.focus()]: the element becomes [document.activeElement] when the
    browser lets it take focus, and the call does nothing otherwise. *)
Definition focus (page : Page) (n : Node) (s : State) : State :=
  emit (Focused n)
    (if takes_focus page (elements s) n then set_activeElement (Some n) s
     else s).

(** [x.focus(); e.preventDefault()]; calling [focus] on [undefined] throws
    and ends the handler. *)
Definition focus_and_prevent (page : Page) (x : option Node) (s : State)
    : State :=
  match x with
  | Some n => emit DefaultPrevented (focus page n s)
  | None => emit TypeErrorThrown s
  end.

(** The handler stored in [modal._trap]. *)
Definition trap_handler (page : Page) (t : Trap) (key : string)
    (shiftKey : bool) (s : State) : State :=
  if negb (String.eqb key "Tab") then s
  else if shiftKey && same_element (activeElement s) (trap_first t) then
    focus_and_prevent page (trap_last t) s
  else if negb shiftKey && same_element (activeElement s) (trap_last t) then
    focus_and_prevent page (trap_first t) s
  else s.

Section Controller.

Variable page : Page.

(** [openModal(key)] up to its [await]. *)
Definition openModal (key : string) (s : State) : State :=
  match modals page key with
  | None => s
  | Some modal =>
      match activeModal s with
      | Some _ => s
      | None =>
          let s := set_activeModal (Some modal) s in
          let s := emit (ActiveSet modal) s in
          animateOpen modal s
      end
  end.

(** [openModal] after its [await]. *)
Definition openModal_resume (modal : Node) (s : State) : State :=
  let s := emit ScrollLocked (set_overflow "hidden" s) in
  let s :=
    if has_header page then
      emit HeaderHidden (set_header_aria_hidden (Some "true") s)
    else s in
  let focusables :=
    getFocusables (from_option descendants [] (elements s !! modal)) in
  let first := el_node <$> head focusables in
  let last := el_node <$> last focusables in
  let t := {| trap_id := next_id s; trap_first := first;
              trap_last := last |} in
  let s := fresh s in
  let s := update modal (set_trap t) s in
  let s := update modal (set_keydown (λ ts, ts ++ [t])) s in
  let s := emit (TrapInstalled modal t) s in
  match first with
  | Some n => focus page n s
  | None => s
  end.

(** [closeModal()] up to its [await].  When the slot holds an object that
    is not an element, [m.removeEventListener] is undefined and its call
    throws. *)
Definition closeModal (s : State) : State :=
  match activeModal s with
  | None => s
  | Some m =>
      match elements s !! m with
      | None => emit TypeErrorThrown s
      | Some _ =>
          let s :=
            match elements s !! m ≫= _trap with
            | Some t =>
                let s := update m (set_keydown
                           (filter (λ t', trap_id t' ≠ trap_id t))) s in
                emit (TrapRemoved m t) s
            | None => s           (* a new empty function is removed *)
            end in
          animateClose m s
      end
  end.

(** [closeModal] after its [await]. *)
Definition closeModal_resume (s : State) : State :=
  let s := emit ActiveCleared (set_activeModal None s) in
  let s := emit ScrollUnlocked (set_overflow "" s) in
  if has_header page then
    emit HeaderShown (set_header_aria_hidden None s)
  else s.

(** The suspended function that continues when the promise is resolved. *)
Definition resume (modal : Node) (k : Kind) (s : State) : State :=
  match k with
  | Opening => openModal_resume modal s
  | Closing => closeModal_resume s
  end.

(** ** Event dispatch *)

(** One listener of an [animationend] event that reaches [modal] with
    [e.target = target]: [onEnd] returns at once unless the target is
    the container itself; when it resolves its promise, the awaiting
    function continues in a microtask, before the next listener runs.  A
    listener removed since the dispatch began is skipped. *)
Definition run_onEnd (modal target : Node) (s : State) (l : Listener)
    : State :=
  if bool_decide (l_id l ∈ l_id <$> listeners modal s) then
    if Nat.eqb target modal then
      resume modal (l_kind l) (onEnd modal l s)
    else s
  else s.

Definition dispatch_animationend (modal target : Node) (s : State)
    : State :=
  foldl (run_onEnd modal target) s (listeners modal s).

Definition run_trap (key : string) (shiftKey : bool) (modal : Node)
    (s : State) (t : Trap) : State :=
  if bool_decide (trap_id t ∈ trap_id <$> traps modal s) then
    trap_handler page t key shiftKey s
  else s.

(** A [keydown] event: the listeners of the modal that contains the
    target (if any), then the listener of [document]. *)
Definition dispatch_keydown (key : string) (shiftKey : bool)
    (within : option Node) (s : State) : State :=
  let s :=
    match within with
    | Some modal => foldl (run_trap key shiftKey modal) s (traps modal s)
    | None => s
    end in
  if String.eqb key "Escape" then closeModal s else s.

(** What the environment can deliver. *)
Inductive Event : Type :=
| ClickOpen (key : string)           (* click on [data-open=key] *)
| ClickClose                         (* click on [data-close] *)
| MouseDown (modal target : Node)    (* mousedown reaching a .modal *)
| KeyDown (key : string) (shiftKey : bool) (within : option Node)
| AnimationEnd (modal target : Node). (* animationend reaching a modal *)

Definition step (s : State) (e : Event) : State :=
  match e with
  | ClickOpen key => openModal key s
  | ClickClose => closeModal s
  | MouseDown modal target =>
      if Nat.eqb target modal then closeModal s else s
  | KeyDown key shiftKey within => dispatch_keydown key shiftKey within s
  | AnimationEnd modal target => dispatch_animationend modal target s
  end.

Definition run (s : State) (es : list Event) : State := foldl step s es.

End Controller.


(** ** A concrete page

    Two dialogs, hidden at start-up as in the markup: the login window
    (node 1) holds a close button, two inputs and a submit button; the
    register window (node 2) holds only content that is not focusable (a
    disabled button and a link marked aria-hidden=false).  Every element
    can take focus, and the built-in objects are numbered from 100 on. *)

Definition element (n : Node) (tag : string) (attrs : list (string * string))
    : Element :=
  {| el_node := n; tagName := tag; attributes := list_to_map attrs |}.

Definition closed_modal (ds : list Element) : Modal :=
  {| hidden := true; classes := ["modal"]; animationend := [];
     keydown := []; _trap := None; descendants := ds |}.

Definition login_descendants : list Element :=
  [ element 10 "div" [("class", "modal__dialog")];
    element 11 "button" [("data-close", "")];
    element 12 "input" [("name", "username")];
    element 13 "input" [("name", "password"); ("type", "password")];
    element 14 "button" [("type", "submit")] ].

Definition register_descendants : list Element :=
  [ element 20 "div" [("class", "modal__dialog")];
    element 21 "button" [("disabled", "")];
    element 22 "a" [("href", "#"); ("aria-hidden", "false")] ].

Definition demo_page : Page :=
  {| register_window := Some 2; login_window := Some 1;
     has_header := true; takes_focus := λ _ _, true; builtins := 100 |}.

Definition demo_init : State :=
  {| activeModal := None; overflow := ""; header_aria_hidden := None;
     activeElement := None;
     elements := <[1 := closed_modal login_descendants]>
                 (<[2 := closed_modal register_descendants]> ∅);
     next_id := 0; trace := [] |}.

(** A page whose login dialog starts with a hidden input: the selector of
    [getFocusables] matches it like any other input, and [focus()] does
    nothing on it.  The trigger that opens the dialog (node 5) has the
    focus. *)
Definition token_descendants : list Element :=
  [ element 40 "input" [("type", "hidden"); ("name", "token")];
    element 41 "input" [("name", "username")];
    element 42 "button" [("type", "submit")] ].

Definition token_page : Page :=
  {| register_window := None; login_window := Some 1;
     has_header := true; takes_focus := λ _ n, negb (n =? 40);
     builtins := 100 |}.

Definition token_init : State :=
  {| activeModal := None; overflow := ""; header_aria_hidden := None;
     activeElement := Some 5;
     elements := <[1 := closed_modal token_descendants]> ∅;
     next_id := 0; trace := [] |}.

(** ** The rule table of the spec

    The validation rules as the specification words them: per field name, an
    ordered list of (check, message) pairs, the emptiness check before the
    format check; a field name without rules always passes.  Used only to
    compare [validateField] with. *)

Definition spec_rules (name : jsstring)
    : list ((jsstring → bool) * string) :=
  if jsstring_eqb name "username" then
    [ (λ val, negb (falsy val), "Введіть ім’я користувача");
      (test re.username, "3–20 символів, латиниця/цифри/_") ]
  else if jsstring_eqb name "email" then
    [ (λ val, negb (falsy val), "Введіть email");
      (test re.email, "Невірний формат email") ]
  else if jsstring_eqb name "password" then
    [ (λ val, negb (falsy val), "Введіть пароль");
      (test re.strong, "Мінімум 6 символів, літера і цифра") ]
  else [].

(** The message of the first rule that fails, if any. *)
Definition spec_first_failing (name val : jsstring) : option string :=
  snd <$> head (List.filter (λ r, negb (fst r val)) (spec_rules name)).

(** Printable ASCII: space to tilde. *)
Definition is_printable (c : N) : bool := between 32 126 c.

(** ** Vocabulary of the statements *)

(** The class token that marks a transition of the given kind. *)
Definition marker (k : Kind) : string :=
  match k with Opening => "is-opening" | Closing => "is-closing" end.

(** The trap closure that [openModal] creates for a container, given the
    identity it receives. *)
Definition trap_for (id : nat) (mel : Modal) : Trap :=
  {| trap_id := id;
     trap_first := el_node <$> head (getFocusables (descendants mel));
     trap_last := el_node <$> last (getFocusables (descendants mel)) |}.

(** The effect of a call on the header, when there is one. *)
Definition on_header (page : Page) (e : Effect) : list Effect :=
  if has_header page then [e] else [].

(** [justified e earlier]: the effect [e] is allowed right after the effects
    [earlier] (newest first).  The scroll lock must come right after the
    resolution of an opening transition and the header marker right after
    the scroll lock; clearing the slot must come right after the resolution
    of a closing transition, the unlock right after that and the removal of
    the header marker right after the unlock. *)
Definition justified (e : Effect) (earlier : list Effect) : bool :=
  match e, earlier with
  | ScrollLocked, Resolved _ Opening :: _ => true
  | ScrollLocked, _ => false
  | HeaderHidden, ScrollLocked :: _ => true
  | HeaderHidden, _ => false
  | ActiveCleared, Resolved _ Closing :: _ => true
  | ActiveCleared, _ => false
  | ScrollUnlocked, ActiveCleared :: _ => true
  | ScrollUnlocked, _ => false
  | HeaderShown, ScrollUnlocked :: _ => true
  | HeaderShown, _ => false
  | _, _ => true
  end.

(** Every effect of the log (newest first) is justified by what precedes
    it. *)
Fixpoint well_ordered (t : list Effect) : bool :=
  match t with
  | [] => true
  | e :: earlier => justified e earlier && well_ordered earlier
  end.

(** A dialog container is engaged when it is shown or in a transition: it is
    not hidden, or it carries a transition marker, or a completion is pending
    on it. *)
Definition engaged (mel : Modal) : Prop :=
  hidden mel = false
  ∨ "is-opening" ∈ classes mel
  ∨ "is-closing" ∈ classes mel
  ∨ animationend mel ≠ [].

(** The slot names every engaged container, and a container with a pending
    close carries no opening marker. *)
Definition consistent (s : State) : Prop :=
  ∀ m mel,
    elements s !! m = Some mel →
    (engaged mel → activeModal s = Some m)
    ∧ ((∃ l, l ∈ animationend mel ∧ l_kind l = Closing) →
       "is-opening" ∉ classes mel).

(** The state of a page on which no dialog is open. *)
Definition at_rest (s : State) : Prop :=
  activeModal s = None
  ∧ ∀ m mel, elements s !! m = Some mel → ¬ engaged mel.

(** What holds between two listeners while an [animationend] event on the
    container [m], whose state was [mel0], is dispatched from the state
    [s0]. *)
Definition flushing (m : Node) (mel0 : Modal) (s0 s : State) : Prop :=
  (∀ m', m' ≠ m → elements s !! m' = elements s0 !! m')
  ∧ ∃ mel,
      elements s !! m = Some mel
      ∧ (∀ tok, tok ∈ classes mel → tok ∈ classes mel0)
      ∧ (∀ l, l ∈ animationend mel → l ∈ animationend mel0)
      ∧ (hidden mel = false → hidden mel0 = false)
      ∧ (activeModal s = activeModal s0
         ∨ (activeModal s = None
            ∧ animationend mel0 ≠ []
            ∧ hidden mel = true
            ∧ ("is-closing" ∉ classes mel)
            ∧ ("is-opening" ∉ classes mel))).

(** An opening completion can only be the oldest one pending on a
    container: every later one belongs to a close. *)
Definition head_only (ls : list Listener) : Prop :=
  match ls with
  | [] => True
  | _ :: later => Forall (λ l, l_kind l = Closing) later
  end.

(** With no dialog active, the page scroll is unlocked and the header is not
    marked. *)
Definition chrome_released (s : State) : Prop :=
  activeModal s = None → overflow s = "" ∧ header_aria_hidden s = None.

(** The closures pending on every container are distinct and older than the
    next identity, an opening one comes first, the chrome is released when
    the slot is empty, and a page without header has no header marker. *)
Definition tidy (page : Page) (s : State) : Prop :=
  (∀ m mel,
     elements s !! m = Some mel →
     head_only (animationend mel)
     ∧ NoDup (l_id <$> animationend mel)
     ∧ ∀ l, l ∈ animationend mel → l_id l < next_id s)
  ∧ chrome_released s
  ∧ (has_header page = false → header_aria_hidden s = None).

(** ** Toast *)

(** What [showToast] works on: whether [window.Swal] exists and the calls of
    [Swal.fire] made so far (title and icon, newest first), the text of the
    live region [#sr-toast] ([None]: no such element), and the messages of
    the pending 50 ms timers, oldest first (timers of equal delay fire in the
    order they were set). *)
Record Notifier := {
  has_Swal : bool;
  swal_fired : list (string * string);
  srLive : option string;
  srLive_timers : list string;
}.

Definition showToast (message type : string) (n : Notifier) : Notifier :=
  let n :=
    if has_Swal n then
      {| has_Swal := has_Swal n;
         swal_fired := (message, type) :: swal_fired n;
         srLive := srLive n; srLive_timers := srLive_timers n |}
    else n in
  match srLive n with
  | Some _ =>
      {| has_Swal := has_Swal n; swal_fired := swal_fired n;
         srLive := Some "";
         srLive_timers := srLive_timers n ++ [message] |}
  | None => n
  end.

(** The oldest pending timer fires: [srLive.textContent = message]. *)
Definition srLive_timeout (n : Notifier) : Notifier :=
  match srLive_timers n with
  | message :: later =>
      {| has_Swal := has_Swal n; swal_fired := swal_fired n;
         srLive := Some message; srLive_timers := later |}
  | [] => n
  end.

(** ** Mobile menu *)

(** The [aria-expanded] attribute of the burger button and the [hidden]
    property of [#mobile-menu] ([None]: no such element). *)
Record Menu := {
  aria_expanded : option string;
  mobileMenu_hidden : option bool;
}.

(** The click listener of the burger; the boolean tells whether it threw,
    which the assignment to [mobileMenu.hidden] does when the menu is
    missing. *)
Definition burger_click (mn : Menu) : Menu * bool :=
  let expanded := bool_decide (aria_expanded mn = Some "true") in
  let attr := Some (if negb expanded then "true" else "false") in
  match mobileMenu_hidden mn with
  | Some _ =>
      ({| aria_expanded := attr; mobileMenu_hidden := Some expanded |}, false)
  | None =>
      ({| aria_expanded := attr; mobileMenu_hidden := None |}, true)
  end.

(** ** Form submission *)

(** A form with its [.field__input[name]] inputs, each in a [.field] group
    of its own, whether it sits inside [#register-window], and the number of
    pending 420 ms timers that remove the class is-invalid. *)
Record Form := {
  form_classList : classList;
  form_inputs : list Input;
  form_in_register : bool;
  form_timers : nat;
}.

(** The submit listener up to its [await]: the form and the dialog state it
    leaves, whether [preventDefault] was called, and the toast that the
    listener shows once the awaited [closeModal()] has settled (if it got
    that far).  [rnd i] stands for what [Math.random] yields while input i
    is validated. *)
Record Submission := {
  sub_form : Form;
  sub_state : State;
  sub_prevented : bool;
  sub_toast : option string;
}.

Definition submit (rnd : nat → jsstring) (form : Form) (s : State)
    : Submission :=
  let inputs := imap (λ i inp, validateField (rnd i) inp) (form_inputs form) in
  let hasError := existsb invalid inputs in
  if hasError then
    {| sub_form :=
         {| form_classList := classList_add "is-invalid" (form_classList form);
            form_inputs := inputs;
            form_in_register := form_in_register form;
            form_timers := S (form_timers form) |};
       sub_state := s;
       sub_prevented := true;
       sub_toast := None |}
  else
    {| sub_form :=
         {| form_classList := form_classList form;
            form_inputs := inputs;
            form_in_register := form_in_register form;
            form_timers := form_timers form |};
       sub_state := closeModal s;
       sub_prevented := true;
       sub_toast :=
         Some (if form_in_register form then "Реєстрація успішна!"
               else "Вхід виконано!") |}.

(** A pending 420 ms timer fires. *)
Definition shake_timeout (form : Form) : Form :=
  match form_timers form with
  | S n =>
      {| form_classList := classList_remove "is-invalid" (form_classList form);
         form_inputs := form_inputs form;
         form_in_register := form_in_register form;
         form_timers := n |}
  | O => form
  end.

(** A dialog that sits in the slot with nothing pending on it is guarded:
    the page scroll is locked, the header (when there is one) is marked,
    and the trap stored on the container is registered on it. *)
Definition guarded (page : Page) (s : State) : Prop :=
  ∀ m mel,
    activeModal s = Some m → elements s !! m = Some mel →
    animationend mel = [] →
    overflow s = "hidden"
    ∧ (has_header page = true → header_aria_hidden s = Some "true")
    ∧ ∃ t, _trap mel = Some t ∧ t ∈ keydown mel.

(** The effects that are resolutions of a promise by an [onEnd] closure. *)
Definition is_resolution (e : Effect) : bool :=
  match e with Resolved _ _ => true | _ => false end.

(** * Properties *)

(** ** The regular-expression matcher *)

Lemma rep_true p k lo hi bos s :
  rep p k lo hi bos s = true ↔
  ∃ n, lo ≤ n ∧ n ≤ length s ∧ (∀ h, hi = Some h → n ≤ h)
       ∧ forallb p (take n s) = true
       ∧ k (bos && bool_decide (n = 0)) (drop n s) = true.
Proof.
  revert lo hi bos. induction s as [|c s IH]; intros lo hi bos; simpl.
  - rewrite orb_false_r. split.
    + destruct lo; [|done]. intros Hk. exists 0. simpl.
      rewrite andb_true_r. repeat split; auto with lia.
    + intros (n & Hlo & Hn & _ & _ & Hk).
      assert (n = 0) as -> by lia. assert (lo = 0) as -> by lia.
      simpl in Hk. by rewrite andb_true_r in Hk.
  - rewrite orb_true_iff, !andb_true_iff, IH. split.
    + intros [Hk | [[Hp Hhi] (n & Hlo & Hn & Hh & Hall & Hk)]].
      * destruct lo; [|done]. exists 0. simpl. rewrite andb_true_r.
        repeat split; auto with lia.
      * exists (S n). simpl. rewrite Hp, andb_false_r. simpl in Hk.
        repeat split; auto with lia.
        intros h ->. destruct h; [done|]. specialize (Hh h eq_refl). lia.
    + intros (n & Hlo & Hn & Hh & Hall & Hk). destruct n as [|n].
      * left. assert (lo = 0) as -> by lia. simpl in Hk.
        by rewrite andb_true_r in Hk.
      * right. simpl in Hall, Hk. apply andb_true_iff in Hall as [Hp Hall].
        rewrite andb_false_r in Hk. split.
        { split; [done|]. destruct hi as [[|h]|]; auto.
          specialize (Hh 0 eq_refl). lia. }
        exists n. simpl. repeat split; auto with lia.
        intros h Hhi. destruct hi as [h'|]; [|done]. simpl in Hhi.
        specialize (Hh h' eq_refl). injection Hhi as <-. lia.
Qed.

Lemma matchLater_Bos r s : matchLater (Bos r) s = false.
Proof. induction s as [|c s IH]; simpl; auto. Qed.

Lemma test_Bos r s : test (Bos r) s = matchHere r true s.
Proof. unfold test. simpl. by rewrite matchLater_Bos, orb_false_r. Qed.

Lemma starts_with_true p b s :
  matchHere (Cls p 1 (Some 1) Accept) b s = true ↔
  ∃ c s', s = c :: s' ∧ p c = true.
Proof.
  destruct s as [|c s]; simpl.
  - split; [done | by intros (? & ? & ? & ?)].
  - destruct s; simpl; rewrite ?andb_true_r, ?orb_true_r, ?andb_true_r.
    all: split; [intros Hp; eauto | by intros (? & ? & [= <- <-] & ?)].
Qed.

Lemma lookahead_true p s :
  forallb cls_dot s = true →
  matchHere (Cls cls_dot 0 None (Cls p 1 (Some 1) Accept)) true s = true
  ↔ existsb p s = true.
Proof.
  intros Hdot.
  change (rep cls_dot (matchHere (Cls p 1 (Some 1) Accept)) 0 None true s
          = true ↔ existsb p s = true).
  rewrite rep_true, existsb_exists. split.
  - intros (n & _ & _ & _ & _ & Hk).
    apply starts_with_true in Hk as (c & s' & Hs & Hp).
    exists c. split; [|done]. rewrite <- (take_drop n s), Hs.
    apply in_or_app. right. by left.
  - intros (c & Hin & Hp). apply in_split in Hin as (l1 & l2 & ->).
    exists (length l1). rewrite take_app_length, drop_app_length.
    rewrite forallb_app in Hdot. apply andb_true_iff in Hdot as [Hdot _].
    split; [lia|]. split; [rewrite length_app; lia|].
    split; [done|]. split; [done|]. apply starts_with_true. eauto.
Qed.

Lemma to_end_true p lo s :
  matchHere (Cls p lo None (Eos Accept)) true s = true
  ↔ lo ≤ length s ∧ forallb p s = true.
Proof.
  change (rep p (matchHere (Eos Accept)) lo None true s = true
          ↔ lo ≤ length s ∧ forallb p s = true).
  rewrite rep_true. split.
  - intros (n & Hlo & Hn & _ & Hall & Hk). simpl in Hk.
    destruct (drop n s) eqn:Hd; [|done].
    apply drop_nil_inv in Hd. assert (n = length s) as -> by lia.
    by rewrite firstn_all in Hall.
  - intros [Hlo Hall]. exists (length s).
    rewrite firstn_all, drop_all. simpl. split; [done|]. split; [done|].
    split; [done|]. done.
Qed.

Lemma cls_strong_range c : cls_strong c = true → (33 ≤ c ≤ 125)%N.
Proof.
  unfold cls_strong, is_upper, is_lower, is_digit, between. simpl.
  rewrite !orb_true_iff, !andb_true_iff, !N.leb_le, !N.eqb_eq. lia.
Qed.

Lemma cls_strong_dot c : cls_strong c = true → cls_dot c = true.
Proof.
  intros H%cls_strong_range. unfold cls_dot.
  rewrite negb_true_iff, !orb_false_iff, !N.eqb_neq. lia.
Qed.

Lemma cls_strong_not_space c : cls_strong c = true → is_space c = false.
Proof.
  intros H%cls_strong_range. unfold is_space, between.
  rewrite !orb_false_iff, !andb_false_iff, !N.leb_gt, !N.eqb_neq. lia.
Qed.

Lemma forallb_impl {A} (p q : A → bool) l :
  (∀ x, p x = true → q x = true) → forallb p l = true → forallb q l = true.
Proof. rewrite !forallb_forall. auto. Qed.

(** What [re.strong] accepts. *)
Lemma test_strong_true s :
  test re.strong s = true ↔
  6 ≤ length s ∧ forallb cls_strong s = true
  ∧ existsb is_letter s = true ∧ existsb is_digit s = true.
Proof.
  unfold re.strong. rewrite test_Bos.
  change (matchHere (Cls cls_dot 0 None (Cls is_letter 1 (Some 1) Accept))
            true s
          && (matchHere (Cls cls_dot 0 None (Cls is_digit 1 (Some 1) Accept))
                true s
              && matchHere (Cls cls_strong 6 None (Eos Accept)) true s)
          = true ↔ 6 ≤ length s ∧ forallb cls_strong s = true
                   ∧ existsb is_letter s = true ∧ existsb is_digit s = true).
  rewrite !andb_true_iff, to_end_true. split.
  - intros (Hl & Hd & Hlen & Hall).
    pose proof (forallb_impl _ _ _ cls_strong_dot Hall) as Hdot.
    apply lookahead_true in Hl, Hd; auto.
  - intros (Hlen & Hall & Hl & Hd).
    pose proof (forallb_impl _ _ _ cls_strong_dot Hall) as Hdot.
    rewrite !lookahead_true; auto.
Qed.

Lemma trimStart_id s :
  forallb (λ c, negb (is_space c)) s = true → trimStart s = s.
Proof.
  destruct s as [|c s]; simpl; [done|].
  intros [Hc _]%andb_true_iff. apply negb_true_iff in Hc. by rewrite Hc.
Qed.

Lemma trim_id s :
  forallb (λ c, negb (is_space c)) s = true → trim s = s.
Proof.
  intros H. unfold trim, trimEnd. rewrite (trimStart_id s H).
  rewrite trimStart_id, rev_involutive; [done|].
  rewrite forallb_forall in *. intros x Hx%in_rev. auto.
Qed.

(** ** What [trim] strips *)

Lemma trimStart_spaces ws s :
  forallb is_space ws = true → trimStart (ws ++ s) = trimStart s.
Proof.
  induction ws as [|c ws IH]; [done|]. cbn [forallb app trimStart].
  intros [-> Hws]%andb_true_iff. by apply IH.
Qed.

Lemma trimStart_split s :
  ∃ ws, s = ws ++ trimStart s ∧ forallb is_space ws = true.
Proof.
  induction s as [|c s (ws & Hs & Hws)]; [by exists []|].
  cbn [trimStart]. destruct (is_space c) eqn:Hc.
  - exists (c :: ws). cbn. rewrite Hc, Hws. by rewrite <- Hs.
  - by exists [].
Qed.

Lemma trimStart_head s :
  match trimStart s with
  | c :: _ => is_space c = false
  | [] => True
  end.
Proof.
  induction s as [|c s IH]; [done|]. cbn [trimStart].
  destruct (is_space c) eqn:Hc; done.
Qed.

Lemma trimStart_fixed s :
  match s with c :: _ => is_space c = false | [] => True end →
  trimStart s = s.
Proof. destruct s as [|c s]; [done|]. cbn. by intros ->. Qed.

Lemma trimStart_app s ws :
  trimStart s ≠ [] → trimStart (s ++ ws) = trimStart s ++ ws.
Proof.
  induction s as [|c s IH]; [done|]. cbn [trimStart app].
  destruct (is_space c); [exact IH | done].
Qed.

Lemma trimEnd_spaces s ws :
  forallb is_space ws = true → trimEnd (s ++ ws) = trimEnd s.
Proof.
  intros Hws. unfold trimEnd. rewrite rev_app_distr, trimStart_spaces; [done|].
  rewrite forallb_forall in *. intros c Hc%in_rev. auto.
Qed.

Lemma trimEnd_split s :
  ∃ ws, s = trimEnd s ++ ws ∧ forallb is_space ws = true.
Proof.
  destruct (trimStart_split (rev s)) as (ws & Hs & Hws).
  exists (rev ws). split.
  - unfold trimEnd. rewrite <- rev_app_distr, <- Hs. by rewrite rev_involutive.
  - rewrite forallb_forall in *. intros c Hc%in_rev. auto.
Qed.

Lemma trimEnd_last s :
  match rev (trimEnd s) with
  | c :: _ => is_space c = false
  | [] => True
  end.
Proof. unfold trimEnd. rewrite rev_involutive. apply trimStart_head. Qed.

Lemma trimEnd_head s :
  match s with c :: _ => is_space c = false | [] => True end →
  match trimEnd s with c :: _ => is_space c = false | [] => True end.
Proof.
  destruct s as [|c s]; [done|]. intros Hc.
  destruct (trimEnd_split (c :: s)) as (ws & Hs & Hws).
  destruct (trimEnd (c :: s)) as [|c' s']; [|by injection Hs as <- _].
  cbn in Hs. subst ws. cbn in Hws. by rewrite Hc in Hws.
Qed.

Lemma trim_head s :
  match trim s with c :: _ => is_space c = false | [] => True end.
Proof. apply trimEnd_head, trimStart_head. Qed.

Lemma trimEnd_fixed s :
  match rev s with c :: _ => is_space c = false | [] => True end →
  trimEnd s = s.
Proof.
  intros H. unfold trimEnd. by rewrite (trimStart_fixed _ H), rev_involutive.
Qed.

Lemma trim_trim s : trim (trim s) = trim s.
Proof.
  unfold trim at 1. rewrite (trimStart_fixed _ (trim_head s)).
  apply trimEnd_fixed. unfold trim. apply trimEnd_last.
Qed.

Lemma trim_padded ws1 s ws2 :
  forallb is_space ws1 = true → forallb is_space ws2 = true →
  trim (ws1 ++ s ++ ws2) = trim s.
Proof.
  intros H1 H2. unfold trim. rewrite (trimStart_spaces _ _ H1).
  destruct (trimStart s) as [|c s'] eqn:Hs.
  - destruct (trimStart_split s) as (ws & Hws & Hall). rewrite Hs in Hws.
    rewrite app_nil_r in Hws. subst ws.
    rewrite (trimStart_spaces _ _ Hall).
    destruct (trimStart_split ws2) as (ws' & Hws' & Hall').
    destruct (trimStart ws2) as [|c w] eqn:Hw; [done|].
    pose proof (trimStart_head ws2) as Hhead. rewrite Hw in Hhead.
    rewrite Hws', forallb_app in H2. cbn in H2.
    rewrite Hhead in H2. cbn in H2. by rewrite andb_false_r in H2.
  - rewrite trimStart_app by (by rewrite Hs). rewrite Hs.
    by apply trimEnd_spaces.
Qed.

(** ** Field validation *)

Lemma jsstring_eqb_true a b : jsstring_eqb a b = true → a = codes b.
Proof. apply bool_decide_eq_true_1. Qed.

Lemma validateField_by_rules rnd input :
  validateField rnd input =
  match spec_first_failing (name input) (trim (value input)) with
  | Some msg => setError rnd input msg
  | None => clearError input
  end.
Proof.
  unfold validateField, spec_first_failing, spec_rules.
  destruct (jsstring_eqb (name input) "username") eqn:Hu.
  { apply jsstring_eqb_true in Hu. rewrite Hu.
    change (jsstring_eqb (codes "username") "email") with false.
    change (jsstring_eqb (codes "username") "password") with false.
    cbn [List.filter fst snd].
    destruct (falsy (trim (value input))); [reflexivity|].
    cbn [negb]. by destruct (test re.username (trim (value input))). }
  destruct (jsstring_eqb (name input) "email") eqn:He.
  { apply jsstring_eqb_true in He. rewrite He.
    change (jsstring_eqb (codes "email") "password") with false.
    cbn [List.filter fst snd].
    destruct (falsy (trim (value input))); [reflexivity|].
    cbn [negb]. by destruct (test re.email (trim (value input))). }
  destruct (jsstring_eqb (name input) "password") eqn:Hp; [|done].
  cbn [List.filter fst snd].
  destruct (falsy (trim (value input))); [reflexivity|].
  cbn [negb]. by destruct (test re.strong (trim (value input))).
Qed.

Lemma shown_message_setError rnd input msg :
  shown_message (setError rnd input msg)
  = match closest_field input with Some _ => Some msg | None => None end.
Proof. unfold shown_message, setError. by destruct (closest_field input). Qed.

Lemma shown_message_clearError input :
  shown_message (clearError input) = None.
Proof.
  unfold shown_message, clearError.
  destruct (closest_field input) as [g|]; [|done]. cbn.
  by destruct (field_error g).
Qed.

Lemma invalid_setError rnd input msg :
  invalid (setError rnd input msg) = true.
Proof. reflexivity. Qed.

Lemma invalid_clearError input : invalid (clearError input) = false.
Proof. reflexivity. Qed.

Lemma trim_between s :
  ∃ ws1 ws2,
    s = ws1 ++ trim s ++ ws2
    ∧ forallb is_space ws1 = true ∧ forallb is_space ws2 = true.
Proof.
  destruct (trimStart_split s) as (ws1 & Hs1 & H1).
  destruct (trimEnd_split (trimStart s)) as (ws2 & Hs2 & H2).
  exists ws1, ws2. split; [|done]. unfold trim. by rewrite <- Hs2, <- Hs1.
Qed.

Lemma trim_ends s :
  (is_space <$> head (trim s)) ≠ Some true
  ∧ (is_space <$> last (trim s)) ≠ Some true.
Proof.
  split.
  - pose proof (trim_head s) as H. destruct (trim s); [done|].
    cbn. by rewrite H.
  - pose proof (trimEnd_last (trimStart s)) as H. fold (trim s) in H.
    rewrite <- (rev_involutive (trim s)).
    destruct (rev (trim s)) as [|c r]; [done|].
    cbn [rev]. rewrite last_snoc. cbn. by rewrite H.
Qed.

(** C5: the field validator applies, to the field name and the trimmed raw
    value, the verdict of the first failing rule in the fixed priority order
    (empty before format), a field name without rules being valid; in
    particular the empty username is invalid with the required message,
    username ab is invalid, username abc_123 is valid, email a@b.c is invalid,
    email a@b.co is valid, password abc123 is valid and password abcdef is
    invalid.  The verdict is the one the submit handler reads back, whatever
    an earlier validation left on the input: the input is marked invalid
    exactly when a rule fails, and then shows the message of that rule; when
    no rule fails it is marked valid and shows no message, also when it was
    marked invalid before.  The value itself is left as typed.  The rules
    see the value without the white space at its two ends, and only
    that: a padded value gets the verdict of the value, and a blank one
    counts as empty. *)
Theorem validateField_first_failing_rule :
  (∀ rnd input,
     validateField rnd input =
     match spec_first_failing (name input) (trim (value input)) with
     | Some msg => setError rnd input msg
     | None => clearError input
     end)
  ∧ (∀ rnd,
       invalid (validateField rnd (text_input "username" "")) = true
       ∧ shown_message (validateField rnd (text_input "username" ""))
         = Some "Введіть ім’я користувача"
       ∧ invalid (validateField rnd (text_input "username" "ab")) = true
       ∧ invalid (validateField rnd (text_input "username" "abc_123")) = false
       ∧ invalid (validateField rnd (text_input "email" "a@b.c")) = true
       ∧ invalid (validateField rnd (text_input "email" "a@b.co")) = false
       ∧ invalid (validateField rnd (text_input "password" "abc123")) = false
       ∧ invalid (validateField rnd (text_input "password" "abcdef")) = true)
  ∧ (∀ rnd input,
       let verdict := spec_first_failing (name input) (trim (value input)) in
       let input' := validateField rnd input in
       invalid input' = bool_decide (is_Some verdict)
       ∧ aria_invalid input'
         = Some (match verdict with Some _ => "true" | None => "false" end)
       ∧ (is_Some (closest_field input) → shown_message input' = verdict)
       ∧ name input' = name input
       ∧ value input' = value input)
  ∧ (spec_first_failing (codes "username") (codes "")
     = Some "Введіть ім’я користувача"
     ∧ spec_first_failing (codes "username") (codes "ab")
       = Some "3–20 символів, латиниця/цифри/_"
     ∧ spec_first_failing (codes "username") (codes "abc_123") = None
     ∧ spec_first_failing (codes "email") (codes "a@b.c")
       = Some "Невірний формат email"
     ∧ spec_first_failing (codes "email") (codes "a@b.co") = None
     ∧ spec_first_failing (codes "password") (codes "abc123") = None
     ∧ spec_first_failing (codes "password") (codes "abcdef")
       = Some "Мінімум 6 символів, літера і цифра"
     ∧ spec_first_failing (codes "phone") (codes "") = None)
  ∧ (∀ rnd msg,
       invalid (failed_input "username" "abc_123" msg) = true
       ∧ shown_message (failed_input "username" "abc_123" msg) = Some msg
       ∧ invalid (validateField rnd (failed_input "username" "abc_123" msg))
         = false
       ∧ shown_message
           (validateField rnd (failed_input "username" "abc_123" msg))
         = None
       ∧ invalid (validateField rnd (failed_input "email" "a@b.co" msg))
         = false
       ∧ shown_message (validateField rnd (failed_input "email" "a@b.co" msg))
         = None
       ∧ invalid (validateField rnd (failed_input "password" "abc123" msg))
         = false
       ∧ shown_message
           (validateField rnd (failed_input "password" "abc123" msg))
         = None)
  ∧ (∀ rnd,
       invalid (validateField rnd (text_input "username" "  abc_123 "))
       = false
       ∧ invalid (validateField rnd (text_input "email" " a@b.co  ")) = false
       ∧ invalid (validateField rnd (text_input "password" " abc123 "))
         = false
       ∧ shown_message (validateField rnd (text_input "password" "   "))
         = Some "Введіть пароль")
  ∧ (∀ s,
       (∃ ws1 ws2,
          s = ws1 ++ trim s ++ ws2
          ∧ forallb is_space ws1 = true ∧ forallb is_space ws2 = true)
       ∧ (is_space <$> head (trim s)) ≠ Some true
       ∧ (is_space <$> last (trim s)) ≠ Some true).
Proof.
  split; [exact validateField_by_rules|].
  split; [intros rnd; repeat split; vm_compute; reflexivity|].
  split.
  { intros rnd input. cbn zeta. rewrite validateField_by_rules.
    destruct (spec_first_failing _ _) as [msg|].
    - rewrite invalid_setError, shown_message_setError.
      split; [done|]. split; [done|]. split; [|done].
      by intros [g ->].
    - rewrite invalid_clearError, shown_message_clearError. done. }
  split; [repeat split; vm_compute; reflexivity|].
  split; [intros rnd msg; repeat split; vm_compute; reflexivity|].
  split; [intros rnd; repeat split; vm_compute; reflexivity|].
  intros s. split; [apply trim_between | apply trim_ends].
Qed.

Lemma validateField_first_failing_rule_witness :
  shown_message
    (validateField [] (failed_input "email" "a@b.c" "Введіть email"))
  = Some "Невірний формат email"
  ∧ invalid
      (validateField [] (failed_input "email" " a@b.co " "Введіть email"))
    = false.
Proof.
  destruct validateField_first_failing_rule as (_ & _ & H & _).
  split.
  - destruct (H [] (failed_input "email" "a@b.c" "Введіть email"))
      as (_ & _ & Hshown & _).
    rewrite (Hshown ltac:(by eexists)). vm_compute. reflexivity.
  - destruct (H [] (failed_input "email" " a@b.co " "Введіть email"))
      as (Hverdict & _).
    rewrite Hverdict. vm_compute. reflexivity.
Defined.

(** A password value that holds a character outside the class of
    [re.strong]: six characters or more, a letter, a digit, printable
    characters only, and yet rejected. *)
Lemma password_with_space_rejected :
  let val := codes "abc 123" in
  6 ≤ length val
  ∧ existsb is_letter val = true
  ∧ existsb is_digit val = true
  ∧ forallb is_printable val = true
  ∧ invalid (validateField [] (text_input "password" "abc 123")) = true.
Proof. vm_compute. repeat split; lia. Qed.

(** C6, as amended: a password value of at least 6 characters, each of them
    an ASCII letter, a digit or one of the punctuation characters listed in
    [re.strong], with at least one letter and at least one digit, validates
    as valid; a password value whose trimmed form holds any other character
    (a space, say) is invalid. *)
Theorem password_valid_within_class rnd input :
  name input = codes "password" →
  (6 ≤ length (value input) →
   forallb cls_strong (value input) = true →
   existsb is_letter (value input) = true →
   existsb is_digit (value input) = true →
   validateField rnd input = clearError input
   ∧ invalid (validateField rnd input) = false)
  ∧ (forallb cls_strong (trim (value input)) = false →
     invalid (validateField rnd input) = true).
Proof.
  intros Hname.
  assert (∀ b : bool,
    test re.strong (trim (value input)) = b →
    validateField rnd input =
    if falsy (trim (value input)) then setError rnd input "Введіть пароль"
    else if negb b then
      setError rnd input "Мінімум 6 символів, літера і цифра"
    else clearError input) as Hv.
  { intros b <-. unfold validateField. rewrite Hname. reflexivity. }
  split.
  - intros Hlen Hall Hl Hd.
    assert (trim (value input) = value input) as Htrim.
    { apply trim_id. eapply forallb_impl; [|exact Hall].
      intros c Hc. by rewrite (cls_strong_not_space c Hc). }
    assert (test re.strong (value input) = true) as Ht
      by (by apply test_strong_true).
    rewrite Htrim in Hv. rewrite (Hv true Ht).
    destruct (value input); [simpl in Hlen; lia|]. done.
  - intros Hnot.
    assert (test re.strong (trim (value input)) = false) as Ht.
    { apply not_true_is_false. intros (_ & Hall & _)%test_strong_true.
      congruence. }
    rewrite (Hv false Ht). by destruct (falsy _).
Qed.

Lemma password_valid_within_class_witness :
  invalid (validateField [] (text_input "password" "p@ss-w0rd!")) = false
  ∧ invalid (validateField [] (text_input "password" "abc~123")) = true.
Proof.
  destruct (password_valid_within_class [] (text_input "password" "p@ss-w0rd!")
              eq_refl) as [H _].
  destruct (password_valid_within_class [] (text_input "password" "abc~123")
              eq_refl) as [_ H'].
  split.
  - apply H; [vm_compute; lia | reflexivity | reflexivity | reflexivity].
  - apply H'. reflexivity.
Defined.

(** ** The focusable set and the focus trap *)

Lemma truthy_nonempty v : v ≠ "" → truthy (Some v) = true.
Proof. by destruct v. Qed.

Lemma getFocusables_spec root el :
  el ∈ getFocusables root ↔
  el ∈ root ∧ selector_focusable el = true
  ∧ hasAttribute "disabled" el = false
  ∧ truthy (getAttribute "aria-hidden" el) = false.
Proof.
  unfold getFocusables, qsa.
  rewrite !list_elem_of_In, !filter_In, andb_true_iff, !negb_true_iff.
  tauto.
Qed.

(** The trap closure that [openModal] builds after its [await], and the
    element it focuses, come from the focusable set of the container. *)
Lemma openModal_resume_trap page modal mel s :
  elements s !! modal = Some mel →
  let focusables := getFocusables (descendants mel) in
  let s' := openModal_resume page modal s in
  ∃ t, elements s' !! modal ≫= _trap = Some t
       ∧ traps modal s' = traps modal s ++ [t]
       ∧ trap_first t = el_node <$> head focusables
       ∧ trap_last t = el_node <$> last focusables
       ∧ activeElement s' =
         match head focusables with
         | Some el =>
             if takes_focus page (elements s') (el_node el)
             then Some (el_node el)
             else activeElement s
         | None => activeElement s
         end.
Proof.
  intros Hm. cbn zeta. unfold openModal_resume, focus, traps.
  destruct (has_header page); cbn [emit set_header_aria_hidden set_overflow
    elements fresh update next_id]; rewrite Hm; cbn [from_option];
    destruct (head (getFocusables (descendants mel))) as [el|];
    cbn [fmap option_fmap option_map emit set_activeElement elements
         activeElement update];
    try destruct (takes_focus page _ (el_node el)) eqn:Hfocus;
    cbn [fmap option_fmap option_map emit set_activeElement elements
         activeElement update];
    rewrite ?lookup_alter_eq.
  all: cbn; rewrite Hm; cbn.
  all: cbn in Hfocus || idtac; rewrite ?Hfocus.
  all: eexists; (split; [reflexivity|]); done.
Qed.

(** C10: the focusable-set computation excludes every element whose
    aria-hidden attribute is present with a non-empty value, an element
    with aria-hidden=false included; such an element is therefore neither
    the first nor the last element of the tab cycle that the trap closes,
    nor the element that receives the initial focus, which are all taken
    from the focusable set. *)
Theorem getFocusables_excludes_aria_hidden :
  (∀ root el v,
     getAttribute "aria-hidden" el = Some v → v ≠ "" →
     el ∉ getFocusables root)
  ∧ (∀ root el,
       getAttribute "aria-hidden" el = Some "false" →
       el ∉ getFocusables root)
  ∧ (∀ page modal mel s el,
       elements s !! modal = Some mel →
       getAttribute "aria-hidden" el = Some "false" →
       let s' := openModal_resume page modal s in
       ∃ t, elements s' !! modal ≫= _trap = Some t
            ∧ t ∈ traps modal s'
            ∧ trap_first t = el_node <$> head (getFocusables (descendants mel))
            ∧ trap_last t = el_node <$> last (getFocusables (descendants mel))
            ∧ head (getFocusables (descendants mel)) ≠ Some el
            ∧ last (getFocusables (descendants mel)) ≠ Some el
            ∧ (activeElement s' = activeElement s
               ∨ ∃ el', el' ≠ el ∧ el' ∈ getFocusables (descendants mel)
                        ∧ activeElement s' = Some (el_node el'))).
Proof.
  assert (∀ root el v,
     getAttribute "aria-hidden" el = Some v → v ≠ "" →
     el ∉ getFocusables root) as Hex.
  { intros root el v Hv Hne (_ & _ & _ & Ht)%getFocusables_spec.
    rewrite Hv, truthy_nonempty in Ht; done. }
  split; [exact Hex|]. split; [intros root el Hv; by eapply Hex|].
  intros page modal mel s el Hm Hv. cbn zeta.
  destruct (openModal_resume_trap page modal mel s Hm)
    as (t & Ht & Hts & Hf & Hl & Ha).
  assert (el ∉ getFocusables (descendants mel)) as Hnot by (by eapply Hex).
  exists t. split; [done|]. split.
  { rewrite Hts. apply elem_of_app. right. by apply list_elem_of_singleton. }
  split; [done|]. split; [done|]. split.
  { intros Hh. apply Hnot. by eapply head_Some_elem_of. }
  split.
  { intros Hh. apply Hnot. apply last_Some in Hh as [l' ->].
    apply elem_of_app. right. by apply list_elem_of_singleton. }
  destruct (head (getFocusables (descendants mel))) as [el'|] eqn:Hh;
    [|by left].
  destruct (takes_focus page _ (el_node el')); [right | by left].
  apply head_Some_elem_of in Hh. exists el'. split; [|done].
  intros ->. done.
Qed.

Lemma getFocusables_excludes_aria_hidden_witness :
  (element 22 "a" [("href", "#"); ("aria-hidden", "false")]
     ∉ getFocusables register_descendants)
  ∧ (∃ t, elements (openModal_resume demo_page 2 demo_init) !! 2 ≫= _trap
          = Some t
          ∧ trap_first t = None ∧ trap_last t = None).
Proof.
  destruct getFocusables_excludes_aria_hidden as (_ & H & H').
  split; [apply H; reflexivity|].
  destruct (H' demo_page 2 (closed_modal register_descendants) demo_init
              (element 22 "a" [("href", "#"); ("aria-hidden", "false")])
              eq_refl eq_refl) as (t & Ht & _ & Hf & Hl & _).
  exists t. split; [exact Ht|]. split; [exact Hf | exact Hl].
Defined.

Lemma foldl_fixed {A B} (f : A → B → A) (a : A) (l : list B) :
  (∀ x, x ∈ l → f a x = a) → foldl f a l = a.
Proof.
  induction l as [|x l IH]; intros H; simpl; [done|].
  rewrite H by left. apply IH. intros y Hy. apply H. by right.
Qed.

Lemma trap_handler_undefined page t shiftKey s :
  trap_first t = None → trap_last t = None →
  trap_handler page t "Tab" shiftKey s = s.
Proof.
  intros Hf Hl. unfold trap_handler. rewrite Hf, Hl. simpl.
  destruct (activeElement s); simpl; by rewrite !andb_false_r.
Qed.

(** C8: when the container has no focusable descendant, the part of
    [openModal] that installs the trap runs to its end without a throw and
    without moving the focus (the closure captures undefined for both
    ends), and every later Tab key press inside the dialog, with or without
    Shift, leaves the whole state as it is: no throw, no focus change, no
    default prevented. *)
Theorem trap_without_focusables page modal mel s :
  elements s !! modal = Some mel →
  getFocusables (descendants mel) = [] →
  (∀ t, t ∈ traps modal s → trap_first t = None ∧ trap_last t = None) →
  let s' := openModal_resume page modal s in
  (∃ t, trap_first t = None ∧ trap_last t = None
        ∧ traps modal s' = traps modal s ++ [t]
        ∧ trace s' =
          TrapInstalled modal t
          :: ((if has_header page then [HeaderHidden] else [])
              ++ ScrollLocked :: trace s))
  ∧ activeElement s' = activeElement s
  ∧ ∀ presses : list bool,
      run page s' ((λ shiftKey, KeyDown "Tab" shiftKey (Some modal))
                   <$> presses) = s'.
Proof.
  intros Hm Hnone Hold. cbn zeta.
  destruct (openModal_resume_trap page modal mel s Hm)
    as (t & _ & Hts & Hf & Hl & Ha).
  rewrite Hnone in Hf, Hl, Ha. simpl in Hf, Hl, Ha.
  split; [|split; [done|]].
  - exists t. split; [done|]. split; [done|]. split; [done|].
    revert Hts. unfold openModal_resume, traps.
    cbn [emit set_header_aria_hidden set_overflow elements fresh update
         next_id].
    destruct (has_header page);
      cbn [emit set_header_aria_hidden set_overflow elements fresh update
           next_id];
      rewrite Hm; cbn [from_option]; rewrite Hnone; cbn;
      rewrite !lookup_alter_eq, Hm; cbn; intros [= <-]%app_inv_head;
      reflexivity.
  - intros presses. induction presses as [|sh presses IH]; [done|].
    cbn [fmap list_fmap run foldl]. fold (list_fmap bool Event).
    assert (step page (openModal_resume page modal s)
              (KeyDown "Tab" sh (Some modal))
            = openModal_resume page modal s) as ->; [|exact IH].
    unfold step, dispatch_keydown. cbn [String.eqb Ascii.eqb Bool.eqb].
    apply foldl_fixed. intros t' Ht'. unfold run_trap.
    destruct (bool_decide _); [|done].
    apply trap_handler_undefined.
    + rewrite Hts in Ht'. apply elem_of_app in Ht' as [Ht'|Ht'].
      * by apply Hold.
      * apply list_elem_of_singleton in Ht'. by subst.
    + rewrite Hts in Ht'. apply elem_of_app in Ht' as [Ht'|Ht'].
      * by apply Hold.
      * apply list_elem_of_singleton in Ht'. by subst.
Qed.

Lemma trap_without_focusables_witness :
  let s' := openModal_resume demo_page 2 demo_init in
  activeElement s' = None
  ∧ run demo_page s'
      [KeyDown "Tab" false (Some 2); KeyDown "Tab" true (Some 2)] = s'.
Proof.
  assert (∀ t, t ∈ traps 2 demo_init →
               trap_first t = None ∧ trap_last t = None) as Hold.
  { intros t Ht. vm_compute in Ht. by apply elem_of_nil in Ht. }
  destruct (trap_without_focusables demo_page 2
              (closed_modal register_descendants) demo_init
              eq_refl eq_refl Hold) as (_ & Ha & Hrun).
  split; [exact Ha | exact (Hrun [false; true])].
Defined.

(** ** Requests that are ignored *)

Lemma trap_handler_other_key page t key shiftKey s :
  String.eqb key "Tab" = false → trap_handler page t key shiftKey s = s.
Proof. intros H. unfold trap_handler. by rewrite H. Qed.



(** ** Mutations of one modal element, in explicit form *)

Lemma update_Some m f s mel :
  elements s !! m = Some mel →
  update m f s =
  {| activeModal := activeModal s; overflow := overflow s;
     header_aria_hidden := header_aria_hidden s;
     activeElement := activeElement s;
     elements := <[m := f mel]> (elements s);
     next_id := next_id s; trace := trace s |}.
Proof. intros H. unfold update. by rewrite (alter_alt_Some _ _ _ _ H). Qed.

Lemma update_None m f s : elements s !! m = None → update m f s = s.
Proof.
  intros H. unfold update. rewrite (alter_id' _ _ _ H). by destruct s.
Qed.

Ltac explicit_update :=
  repeat match goal with
    | |- context [update ?m ?f ?s] =>
        erewrite (update_Some m f s)
          by (cbn [elements emit fresh set_activeModal set_overflow
                   set_header_aria_hidden set_activeElement];
              first [eassumption | apply lookup_insert_eq]);
        cbn [elements emit fresh set_activeModal set_overflow
             set_header_aria_hidden set_activeElement activeModal overflow
             header_aria_hidden activeElement next_id trace];
        rewrite ?insert_insert_eq
    end.

Lemma animateOpen_Some modal s mel :
  elements s !! modal = Some mel →
  animateOpen modal s =
  {| activeModal := activeModal s; overflow := overflow s;
     header_aria_hidden := header_aria_hidden s;
     activeElement := activeElement s;
     elements :=
       <[modal :=
          {| hidden := false;
             classes := classList_add "is-opening"
                          (classList_remove "is-closing" (classes mel));
             animationend :=
               animationend mel
               ++ [{| l_id := next_id s; l_kind := Opening |}];
             keydown := keydown mel; _trap := _trap mel;
             descendants := descendants mel |}]> (elements s);
     next_id := S (next_id s);
     trace := AnimationStarted modal Opening :: trace s |}.
Proof.
  intros Hm. unfold animateOpen. rewrite Hm. explicit_update. reflexivity.
Qed.

Lemma animateClose_Some modal s mel :
  elements s !! modal = Some mel →
  animateClose modal s =
  {| activeModal := activeModal s; overflow := overflow s;
     header_aria_hidden := header_aria_hidden s;
     activeElement := activeElement s;
     elements :=
       <[modal :=
          {| hidden := hidden mel;
             classes := classList_add "is-closing"
                          (classList_remove "is-opening" (classes mel));
             animationend :=
               animationend mel
               ++ [{| l_id := next_id s; l_kind := Closing |}];
             keydown := keydown mel; _trap := _trap mel;
             descendants := descendants mel |}]> (elements s);
     next_id := S (next_id s);
     trace := AnimationStarted modal Closing :: trace s |}.
Proof.
  intros Hm. unfold animateClose. rewrite Hm. explicit_update. reflexivity.
Qed.

Lemma animateOpen_None modal s :
  elements s !! modal = None →
  animateOpen modal s = emit TypeErrorThrown s.
Proof. intros Hm. unfold animateOpen. by rewrite Hm. Qed.

Lemma animateClose_None modal s :
  elements s !! modal = None →
  animateClose modal s = emit TypeErrorThrown s.
Proof. intros Hm. unfold animateClose. by rewrite Hm. Qed.

Lemma onEnd_Some modal l s mel :
  elements s !! modal = Some mel →
  onEnd modal l s =
  {| activeModal := activeModal s; overflow := overflow s;
     header_aria_hidden := header_aria_hidden s;
     activeElement := activeElement s;
     elements :=
       <[modal :=
          {| hidden := match l_kind l with
                       | Opening => hidden mel
                       | Closing => true
                       end;
             classes := classList_remove (marker (l_kind l)) (classes mel);
             animationend :=
               filter (λ l', l_id l' ≠ l_id l) (animationend mel);
             keydown := keydown mel; _trap := _trap mel;
             descendants := descendants mel |}]> (elements s);
     next_id := next_id s;
     trace := Resolved modal (l_kind l) :: trace s |}.
Proof.
  intros Hm. unfold onEnd. destruct (l_kind l); explicit_update; reflexivity.
Qed.

Lemma openModal_resume_Some page modal s mel :
  elements s !! modal = Some mel →
  let t := trap_for (next_id s) mel in
  let els :=
    <[modal :=
       {| hidden := hidden mel; classes := classes mel;
          animationend := animationend mel;
          keydown := keydown mel ++ [t]; _trap := Some t;
          descendants := descendants mel |}]> (elements s) in
  openModal_resume page modal s =
  {| activeModal := activeModal s; overflow := "hidden";
     header_aria_hidden :=
       if has_header page then Some "true" else header_aria_hidden s;
     activeElement :=
       match trap_first t with
       | Some n =>
           if takes_focus page els n then Some n else activeElement s
       | None => activeElement s
       end;
     elements := els;
     next_id := S (next_id s);
     trace :=
       match trap_first t with Some n => [Focused n] | None => [] end
       ++ TrapInstalled modal t
          :: (on_header page HeaderHidden ++ ScrollLocked :: trace s) |}.
Proof.
  intros Hm. cbn zeta. unfold openModal_resume, on_header, trap_for, focus.
  destruct (has_header page);
    cbn [emit set_header_aria_hidden set_overflow elements fresh next_id];
    rewrite Hm; cbn [from_option];
    destruct (head (getFocusables (descendants mel))) as [e|];
    cbn [fmap option_fmap option_map trap_first];
    explicit_update;
    try destruct (takes_focus page _ (el_node e));
    reflexivity.
Qed.

Lemma closeModal_Some s m mel :
  activeModal s = Some m →
  elements s !! m = Some mel →
  closeModal s =
  {| activeModal := Some m; overflow := overflow s;
     header_aria_hidden := header_aria_hidden s;
     activeElement := activeElement s;
     elements :=
       <[m :=
          {| hidden := hidden mel;
             classes := classList_add "is-closing"
                          (classList_remove "is-opening" (classes mel));
             animationend :=
               animationend mel
               ++ [{| l_id := next_id s; l_kind := Closing |}];
             keydown :=
               match _trap mel with
               | Some t => filter (λ t', trap_id t' ≠ trap_id t) (keydown mel)
               | None => keydown mel
               end;
             _trap := _trap mel;
             descendants := descendants mel |}]> (elements s);
     next_id := S (next_id s);
     trace :=
       AnimationStarted m Closing
       :: (match _trap mel with
           | Some t => [TrapRemoved m t]
           | None => []
           end ++ trace s) |}.
Proof.
  intros Ha Hm. unfold closeModal. rewrite Ha, Hm. cbn [mbind option_bind].
  destruct (_trap mel) as [t|] eqn:Ht.
  - explicit_update.
    erewrite animateClose_Some by (cbn [elements]; apply lookup_insert_eq).
    cbn. rewrite insert_insert_eq, Ht, Ha. reflexivity.
  - erewrite animateClose_Some by eassumption. rewrite Ht, Ha. reflexivity.
Qed.

Lemma closeModal_None s m :
  activeModal s = Some m →
  elements s !! m = None →
  closeModal s = emit TypeErrorThrown s.
Proof. intros Ha Hm. unfold closeModal. by rewrite Ha, Hm. Qed.

Lemma elem_of_classList_remove tok tok' cl :
  tok ∈ classList_remove tok' cl ↔ tok ≠ tok' ∧ tok ∈ cl.
Proof. exact (list_elem_of_filter (λ t, t ≠ tok') cl tok). Qed.

Lemma elem_of_classList_add tok tok' cl :
  tok ∈ classList_add tok' cl ↔ tok = tok' ∨ tok ∈ cl.
Proof.
  unfold classList_add. case_bool_decide as Hin.
  - split; [by right | by intros [->|?]].
  - rewrite elem_of_app, list_elem_of_singleton. tauto.
Qed.

(** ** Dispatch of [animationend] *)

Lemma listeners_Some m s mel :
  elements s !! m = Some mel → listeners m s = animationend mel.
Proof. intros H. unfold listeners. by rewrite H. Qed.

Lemma run_onEnd_registered page m s l mel :
  elements s !! m = Some mel →
  l_id l ∈ l_id <$> animationend mel →
  run_onEnd page m m s l = resume page m (l_kind l) (onEnd m l s).
Proof.
  intros Hm Hl. unfold run_onEnd. rewrite (listeners_Some _ _ _ Hm).
  by rewrite bool_decide_eq_true_2, Nat.eqb_refl.
Qed.

Lemma run_onEnd_removed page m target s l :
  l_id l ∉ l_id <$> listeners m s → run_onEnd page m target s l = s.
Proof. intros Hl. unfold run_onEnd. by rewrite bool_decide_eq_false_2. Qed.

Lemma run_onEnd_bubbled page m target s l :
  target ≠ m → run_onEnd page m target s l = s.
Proof.
  intros Hne. unfold run_onEnd. apply Nat.eqb_neq in Hne. rewrite Hne.
  by destruct (bool_decide _).
Qed.

(** A completion notification that bubbled up from a descendant changes
    nothing. *)
Lemma dispatch_animationend_bubbled page m target s :
  target ≠ m → dispatch_animationend page m target s = s.
Proof.
  intros Hne. unfold dispatch_animationend. apply foldl_fixed.
  intros l _. by apply run_onEnd_bubbled.
Qed.

(** ** A close request during the opening transition *)

(** C9: a close request that arrives while the dialog is still opening (the
    promise of [animateOpen] is pending) is accepted: the closing transition
    starts at once, next to the pending one.  When [animationend] then
    reaches the container, the suspended [openModal] continues all the same:
    it locks the scroll, marks the header, installs the focus trap and
    focuses the first focusable element; after that the suspended
    [closeModal] clears the slot and reverts lock and marker, so the dialog
    ends up closed and hidden with the trap still installed.  In the state
    the open continuation leaves behind, between the two, the scroll is
    locked, the header (when there is one) marked and the trap registered,
    on a container that carries the closing marker and still has the
    completion of the close pending. *)
Theorem close_during_opening page s m mel l :
  activeModal s = Some m →
  elements s !! m = Some mel →
  animationend mel = [l] →
  l_kind l = Opening →
  l_id l < next_id s →
  let s1 := step page s ClickClose in
  let s2 := step page s1 (AnimationEnd m m) in
  let t := trap_for (S (next_id s)) mel in
  let c := {| l_id := next_id s; l_kind := Closing |} in
  let opened := resume page m Opening (onEnd m l s1) in
  (trace s1 =
     AnimationStarted m Closing
     :: (match _trap mel with Some t' => [TrapRemoved m t'] | None => [] end
         ++ trace s)
   ∧ "is-closing" ∈ class_list m s1
   ∧ listeners m s1 = [l; {| l_id := next_id s; l_kind := Closing |}])
  ∧ trace s2 =
    on_header page HeaderShown
    ++ ScrollUnlocked :: ActiveCleared :: Resolved m Closing
       :: (match trap_first t with Some n => [Focused n] | None => [] end
           ++ TrapInstalled m t
              :: (on_header page HeaderHidden
                  ++ ScrollLocked :: Resolved m Opening :: trace s1))
  ∧ activeModal s2 = None
  ∧ overflow s2 = ""
  ∧ is_hidden m s2 = Some true
  ∧ listeners m s2 = []
  ∧ t ∈ traps m s2
  ∧ (overflow opened = "hidden"
     ∧ header_aria_hidden opened
       = (if has_header page then Some "true" else header_aria_hidden s)
     ∧ activeModal opened = Some m
     ∧ t ∈ traps m opened
     ∧ "is-closing" ∈ class_list m opened
     ∧ is_hidden m opened = Some (hidden mel)
     ∧ listeners m opened = [c])
  ∧ s2 = resume page m Closing (onEnd m c opened)
  ∧ header_aria_hidden s2
    = (if has_header page then None else header_aria_hidden s).
Proof.
  intros Ha Hm Hl Hk Hid. cbn zeta. cbn [step].
  rewrite (closeModal_Some s m mel Ha Hm), Hl.
  split.
  { split; [reflexivity|]. unfold class_list, listeners. cbn [elements].
    rewrite lookup_insert_eq. cbn [from_option classes animationend].
    split; [|reflexivity].
    unfold classList_add. case_bool_decide; [done|].
    apply elem_of_app. right. by apply list_elem_of_singleton. }
  unfold dispatch_animationend.
  erewrite listeners_Some by (cbn [elements]; apply lookup_insert_eq).
  cbn [animationend app foldl].
  erewrite (run_onEnd_registered page m _ l);
    [|cbn [elements]; apply lookup_insert_eq|cbn; left].
  erewrite onEnd_Some by (cbn [elements]; apply lookup_insert_eq).
  rewrite Hk. cbn [resume hidden classes animationend keydown _trap
    descendants activeModal overflow header_aria_hidden activeElement
    elements next_id trace marker].
  rewrite insert_insert_eq.
  rewrite filter_cons_False by (intros H; by apply H).
  rewrite filter_cons_True by (cbn; lia).
  rewrite filter_nil.
  erewrite openModal_resume_Some by (cbn [elements]; apply lookup_insert_eq).
  cbn [hidden classes animationend keydown _trap descendants activeModal
    overflow header_aria_hidden activeElement elements next_id trace].
  rewrite insert_insert_eq.
  erewrite run_onEnd_registered;
    [|cbn [elements]; apply lookup_insert_eq|cbn; left].
  erewrite onEnd_Some by (cbn [elements]; apply lookup_insert_eq).
  cbn [resume hidden classes animationend keydown _trap
    descendants activeModal overflow header_aria_hidden activeElement
    elements next_id trace marker l_kind l_id].
  rewrite insert_insert_eq.
  rewrite filter_cons_False by (intros H; by apply H).
  rewrite filter_nil.
  unfold closeModal_resume, on_header, is_hidden, listeners, traps,
    class_list.
  change (trap_for (S (next_id s)) ?x) with (trap_for (S (next_id s)) mel).
  destruct (has_header page); cbn; rewrite !lookup_insert_eq; cbn.
  all: repeat split; try reflexivity.
  all: try (apply elem_of_app; right; by apply list_elem_of_singleton).
  all: apply elem_of_classList_remove; split; [done|].
  all: apply elem_of_classList_add; by left.
Qed.

Lemma close_during_opening_witness :
  let s := step demo_page demo_init (ClickOpen "login") in
  let s2 := run demo_page s [ClickClose; AnimationEnd 1 1] in
  let opened :=
    resume demo_page 1 Opening
      (onEnd 1 {| l_id := 0; l_kind := Opening |}
         (step demo_page s ClickClose)) in
  activeModal s2 = None
  ∧ overflow s2 = ""
  ∧ is_hidden 1 s2 = Some true
  ∧ trap_for 2 (closed_modal login_descendants) ∈ traps 1 s2
  ∧ overflow opened = "hidden"
  ∧ header_aria_hidden opened = Some "true"
  ∧ activeModal opened = Some 1
  ∧ header_aria_hidden s2 = None.
Proof.
  pose (l := {| l_id := 0; l_kind := Opening |}).
  pose (mel := {| hidden := false; classes := ["modal"; "is-opening"];
                  animationend := [l]; keydown := []; _trap := None;
                  descendants := login_descendants |}).
  assert (0 < 1) as Hlt by lia.
  destruct (close_during_opening demo_page
              (step demo_page demo_init (ClickOpen "login")) 1 mel l
              eq_refl eq_refl eq_refl eq_refl Hlt)
    as (_ & _ & Ha & Ho & Hh & _ & Ht & (Hlock & Hmark & Hslot & _) & _
        & Hshown).
  split; [exact Ha|]. split; [exact Ho|]. split; [exact Hh|].
  split; [exact Ht|]. split; [exact Hlock|]. split; [exact Hmark|].
  split; [exact Hslot | exact Hshown].
Defined.

(** Closing a dialog whose trap is installed removes that trap on the
    request, before the closing transition starts. *)
Lemma closeModal_removes_trap_first s m mel t :
  activeModal s = Some m →
  elements s !! m = Some mel →
  _trap mel = Some t →
  trace (closeModal s)
  = AnimationStarted m Closing :: TrapRemoved m t :: trace s
  ∧ t ∉ traps m (closeModal s).
Proof.
  intros Ha Hm Ht. rewrite (closeModal_Some s m mel Ha Hm), Ht.
  split; [reflexivity|]. unfold traps. cbn [elements].
  rewrite lookup_insert_eq. cbn [from_option keydown].
  intros [H _]%list_elem_of_filter. by apply H.
Qed.

(** C4, at the input on which the code breaks it: login is requested, Escape
    is pressed while the dialog is still opening, and then the transition
    ends.  The dialog is closed (slot empty, container hidden, no transition
    pending), nothing was removed, and the trap handler that the resumed
    [openModal] installed is still registered on the container. *)
Theorem trap_outlives_dialog_closed_while_opening :
  let s := run demo_page demo_init
             [ClickOpen "login"; KeyDown "Escape" false None;
              AnimationEnd 1 1] in
  activeModal s = None
  ∧ is_hidden 1 s = Some true
  ∧ class_list 1 s = ["modal"]
  ∧ listeners 1 s = []
  ∧ traps 1 s
    = [{| trap_id := 2; trap_first := Some 11; trap_last := Some 14 |}]
  ∧ rev (trace s)
    = [ActiveSet 1; AnimationStarted 1 Opening; AnimationStarted 1 Closing;
       Resolved 1 Opening; ScrollLocked; HeaderHidden;
       TrapInstalled 1
         {| trap_id := 2; trap_first := Some 11; trap_last := Some 14 |};
       Focused 11; Resolved 1 Closing; ActiveCleared; ScrollUnlocked;
       HeaderShown].
Proof. vm_compute. repeat split. Qed.

(** ** Pending completions *)

Lemma update_lookup_ne m m' f s :
  m' ≠ m → elements (update m' f s) !! m = elements s !! m.
Proof. intros Hne. unfold update. cbn. by rewrite lookup_alter_ne. Qed.

Lemma listeners_update_ne m m' f s :
  m' ≠ m → listeners m (update m' f s) = listeners m s.
Proof. intros Hne. unfold listeners. by rewrite update_lookup_ne. Qed.

Lemma elements_animateOpen_ne m m' s :
  m' ≠ m → elements (animateOpen m' s) !! m = elements s !! m.
Proof.
  intros Hne. unfold animateOpen. destruct (elements s !! m'); [|done].
  rewrite update_lookup_ne by done. cbn. by rewrite !lookup_alter_ne.
Qed.

Lemma elements_animateClose_ne m m' s :
  m' ≠ m → elements (animateClose m' s) !! m = elements s !! m.
Proof.
  intros Hne. unfold animateClose. destruct (elements s !! m'); [|done].
  rewrite update_lookup_ne by done. cbn. by rewrite !lookup_alter_ne.
Qed.

Lemma elements_onEnd_ne m m' l s :
  m' ≠ m → elements (onEnd m' l s) !! m = elements s !! m.
Proof.
  intros Hne. unfold onEnd. destruct (l_kind l); cbn;
    by rewrite !lookup_alter_ne.
Qed.

Lemma elements_openModal_resume_ne page m m' s :
  m' ≠ m → elements (openModal_resume page m' s) !! m = elements s !! m.
Proof.
  intros Hne. unfold openModal_resume, focus.
  destruct (has_header page), (el_node <$> head _) as [n|];
    try destruct (takes_focus page _ n); cbn;
    by rewrite !lookup_alter_ne.
Qed.

Lemma elements_closeModal_resume page s :
  elements (closeModal_resume page s) = elements s.
Proof. unfold closeModal_resume. by destruct (has_header page). Qed.

Lemma elements_run_onEnd_ne page m m' target s l :
  m' ≠ m → elements (run_onEnd page m' target s l) !! m = elements s !! m.
Proof.
  intros Hne. unfold run_onEnd.
  destruct (bool_decide _); [|done]. destruct (target =? m'); [|done].
  destruct (l_kind l); cbn [resume].
  - by rewrite elements_openModal_resume_ne, elements_onEnd_ne.
  - by rewrite elements_closeModal_resume, elements_onEnd_ne.
Qed.

Lemma elements_dispatch_animationend_ne page m m' target s :
  m' ≠ m →
  elements (dispatch_animationend page m' target s) !! m = elements s !! m.
Proof.
  intros Hne. unfold dispatch_animationend.
  generalize (listeners m' s). intros ls. revert s.
  induction ls as [|l ls IH]; intros s; cbn [foldl]; [done|].
  by rewrite IH, elements_run_onEnd_ne.
Qed.

Lemma elements_trap_handler page t key shiftKey s :
  elements (trap_handler page t key shiftKey s) = elements s.
Proof.
  unfold trap_handler, focus_and_prevent, focus.
  destruct (trap_last t), (trap_first t);
    repeat (match goal with |- context [if ?b then _ else _] => destruct b end);
    done.
Qed.

Lemma elements_traps_run page key shiftKey m s ts :
  elements (foldl (run_trap page key shiftKey m) s ts) = elements s
  ∧ activeModal (foldl (run_trap page key shiftKey m) s ts) = activeModal s.
Proof.
  revert s. induction ts as [|t ts IH]; intros s; cbn [foldl]; [done|].
  destruct (IH (run_trap page key shiftKey m s t)) as [-> ->].
  unfold run_trap. destruct (bool_decide _); [|done].
  rewrite elements_trap_handler. split; [done|].
  unfold trap_handler, focus_and_prevent, focus.
  destruct (trap_last t), (trap_first t);
    repeat (match goal with |- context [if ?b then _ else _] => destruct b end);
    done.
Qed.

Lemma listeners_animateOpen m modal s l :
  l ∈ listeners m s → l ∈ listeners m (animateOpen modal s).
Proof.
  intros Hl. destruct (decide (modal = m)) as [->|Hne].
  - destruct (elements s !! m) as [mel|] eqn:Hm.
    + rewrite (animateOpen_Some _ _ _ Hm). unfold listeners in *.
      cbn [elements]. rewrite lookup_insert_eq. rewrite Hm in Hl.
      cbn in *. apply elem_of_app. by left.
    + by rewrite (animateOpen_None _ _ Hm).
  - unfold listeners. by rewrite elements_animateOpen_ne.
Qed.

Lemma listeners_animateClose m modal s l :
  l ∈ listeners m s → l ∈ listeners m (animateClose modal s).
Proof.
  intros Hl. destruct (decide (modal = m)) as [->|Hne].
  - destruct (elements s !! m) as [mel|] eqn:Hm.
    + rewrite (animateClose_Some _ _ _ Hm). unfold listeners in *.
      cbn [elements]. rewrite lookup_insert_eq. rewrite Hm in Hl.
      cbn in *. apply elem_of_app. by left.
    + by rewrite (animateClose_None _ _ Hm).
  - unfold listeners. by rewrite elements_animateClose_ne.
Qed.

Lemma listeners_openModal page key m s l :
  l ∈ listeners m s → l ∈ listeners m (openModal page key s).
Proof.
  intros Hl. unfold openModal.
  destruct (modals page key); [|done]. destruct (activeModal s); [done|].
  by apply listeners_animateOpen.
Qed.

Lemma listeners_closeModal m s l :
  l ∈ listeners m s → l ∈ listeners m (closeModal s).
Proof.
  intros Hl. unfold closeModal. destruct (activeModal s) as [m'|]; [|done].
  destruct (elements s !! m') as [mel'|] eqn:Hm'; [|done].
  apply listeners_animateClose. rewrite <- Hm'.
  destruct (elements s !! m' ≫= _trap); [|done].
  unfold listeners in *. cbn. rewrite lookup_alter.
  case_decide; [|done]. subst. by destruct (elements s !! m).
Qed.

(** An event other than [animationend] on the container itself leaves every
    completion that is pending on the container pending. *)
Lemma pending_step page m s e l :
  e ≠ AnimationEnd m m →
  l ∈ listeners m s → l ∈ listeners m (step page s e).
Proof.
  intros He Hl. destruct e as [key| |m' target|key sh within|m' target];
    cbn [step].
  - by apply listeners_openModal.
  - by apply listeners_closeModal.
  - destruct (target =? m'); [|done]. by apply listeners_closeModal.
  - unfold dispatch_keydown.
    assert (l ∈ listeners m
              match within with
              | Some modal => foldl (run_trap page key sh modal) s (traps modal s)
              | None => s
              end) as Hl'.
    { destruct within as [modal|]; [|done]. unfold listeners.
      by destruct (elements_traps_run page key sh modal s (traps modal s))
        as [-> _]. }
    destruct (String.eqb key "Escape"); [|done].
    by apply listeners_closeModal.
  - destruct (decide (target = m')) as [->|Hne].
    + assert (m' ≠ m) by congruence.
      unfold listeners. by rewrite elements_dispatch_animationend_ne.
    + by rewrite dispatch_animationend_bubbled.
Qed.

Lemma pending_run page m s es l :
  Forall (λ e, e ≠ AnimationEnd m m) es →
  l ∈ listeners m s → l ∈ listeners m (run page s es).
Proof.
  intros Hes. revert s. unfold run.
  induction Hes as [|e es He _ IH]; intros s Hl; cbn [foldl]; [done|].
  apply IH. by apply pending_step.
Qed.

Lemma filter_all {A} (P : A → Prop) `{∀ x, Decision (P x)} (l : list A) :
  (∀ x, x ∈ l → P x) → filter P l = l.
Proof.
  induction l as [|x l IH]; intros Hall; [done|].
  rewrite filter_cons_True by (apply Hall; left).
  f_equal. apply IH. intros y Hy. apply Hall. by right.
Qed.

Lemma filter_none {A} (P : A → Prop) `{∀ x, Decision (P x)} (l : list A) :
  (∀ x, x ∈ l → ¬ P x) → filter P l = [].
Proof.
  induction l as [|x l IH]; intros Hall; [done|].
  rewrite filter_cons_False by (apply Hall; left).
  apply IH. intros y Hy. apply Hall. by right.
Qed.

Lemma listeners_resume_onEnd page m s l :
  listeners m (resume page m (l_kind l) (onEnd m l s))
  = filter (λ l', l_id l' ≠ l_id l) (listeners m s).
Proof.
  destruct (elements s !! m) as [mel|] eqn:Hm.
  - rewrite (onEnd_Some _ _ _ _ Hm), (listeners_Some _ _ _ Hm).
    destruct (l_kind l); cbn [resume].
    + erewrite openModal_resume_Some by (cbn [elements]; apply lookup_insert_eq).
      unfold listeners. cbn [elements]. by rewrite lookup_insert_eq.
    + unfold listeners. rewrite elements_closeModal_resume. cbn [elements].
      by rewrite lookup_insert_eq.
  - assert (listeners m s = []) as Hnil by (unfold listeners; by rewrite Hm).
    rewrite Hnil, filter_nil. unfold onEnd.
    destruct (l_kind l); cbn [resume]; rewrite !(update_None m _ s Hm).
    + unfold listeners, openModal_resume, focus.
      destruct (has_header page), (el_node <$> head _) as [n|];
        try destruct (takes_focus page _ n); cbn;
        rewrite !(alter_id' _ _ _ Hm), Hm; done.
    + unfold listeners. rewrite elements_closeModal_resume.
      cbn. by rewrite Hm.
Qed.

Lemma listeners_run_onEnd page m s l :
  listeners m (run_onEnd page m m s l)
  = filter (λ l', l_id l' ≠ l_id l) (listeners m s).
Proof.
  unfold run_onEnd. rewrite Nat.eqb_refl. case_bool_decide as Hin.
  - apply listeners_resume_onEnd.
  - symmetry. apply filter_all. intros l' Hl' Heq. apply Hin.
    rewrite <- Heq. by apply list_elem_of_fmap_2.
Qed.

Lemma listeners_flush page m ls s :
  listeners m (foldl (run_onEnd page m m) s ls)
  = filter (λ l', l_id l' ∉ l_id <$> ls) (listeners m s).
Proof.
  revert s. induction ls as [|l ls IH]; intros s; cbn [foldl].
  - symmetry. apply filter_all. intros l' _. cbn. apply not_elem_of_nil.
  - rewrite IH, listeners_run_onEnd, list_filter_filter.
    apply list_filter_iff. intros l'. cbn. rewrite not_elem_of_cons. tauto.
Qed.

(** An [animationend] event on the container itself leaves no completion
    pending on it. *)
Lemma dispatch_animationend_settles page m s :
  listeners m (dispatch_animationend page m m s) = [].
Proof.
  unfold dispatch_animationend. rewrite listeners_flush.
  apply filter_none. intros l Hl Hnot. apply Hnot.
  by apply list_elem_of_fmap_2.
Qed.

Lemma trace_resume page m k s :
  ∃ new, trace (resume page m k s) = new ++ trace s.
Proof.
  destruct k; cbn [resume].
  - unfold openModal_resume, focus.
    destruct (has_header page), (el_node <$> head _) as [n|];
      try destruct (takes_focus page _ n); cbn.
    all: first [ by eexists [_; _; _; _] | by eexists [_; _; _]
               | by eexists [_; _] ].
  - unfold closeModal_resume. destruct (has_header page); cbn.
    + by eexists [_; _; _].
    + by eexists [_; _].
Qed.

Lemma trace_onEnd m l s :
  trace (onEnd m l s) = Resolved m (l_kind l) :: trace s.
Proof. unfold onEnd. by destruct (l_kind l). Qed.

Lemma trace_run_onEnd_mono page m target s l e :
  e ∈ trace s → e ∈ trace (run_onEnd page m target s l).
Proof.
  intros He. unfold run_onEnd.
  destruct (bool_decide _); [|done]. destruct (target =? m); [|done].
  destruct (trace_resume page m (l_kind l) (onEnd m l s)) as [new ->].
  rewrite trace_onEnd. apply elem_of_app. right. by right.
Qed.

Lemma trace_flush_mono page m target ls s e :
  e ∈ trace s → e ∈ trace (foldl (run_onEnd page m target) s ls).
Proof.
  revert s. induction ls as [|l ls IH]; intros s He; cbn [foldl]; [done|].
  by apply IH, trace_run_onEnd_mono.
Qed.

(** When the closures registered on the container are distinct, the event
    resolves the promise of each of them. *)
Lemma flush_resolves page m ls s :
  NoDup (l_id <$> ls) →
  (∀ x, x ∈ ls → l_id x ∈ l_id <$> listeners m s) →
  ∀ l, l ∈ ls →
       Resolved m (l_kind l) ∈ trace (foldl (run_onEnd page m m) s ls).
Proof.
  revert s. induction ls as [|x ls IH]; intros s Hnd Hreg l Hl.
  { by apply elem_of_nil in Hl. }
  cbn [foldl]. rewrite fmap_cons in Hnd. apply NoDup_cons in Hnd as [Hx Hnd].
  apply elem_of_cons in Hl as [->|Hl].
  - apply trace_flush_mono. unfold run_onEnd.
    rewrite bool_decide_eq_true_2 by (apply Hreg; left).
    rewrite Nat.eqb_refl.
    destruct (trace_resume page m (l_kind x) (onEnd m x s)) as [new ->].
    rewrite trace_onEnd. apply elem_of_app. right. by left.
  - apply IH; [done| |done]. intros y Hy. rewrite listeners_run_onEnd.
    assert (l_id y ∈ l_id <$> listeners m s) as Hy' by (apply Hreg; by right).
    apply list_elem_of_fmap in Hy' as (y' & Heq & Hy').
    rewrite Heq. apply list_elem_of_fmap_2. apply list_elem_of_filter.
    split; [|done]. intros Hid. apply Hx. rewrite <- Hid, <- Heq.
    by apply list_elem_of_fmap_2.
Qed.

(** A transition does not settle without a completion event: after login is
    requested, in an environment that delivers no [animationend] event at
    all (here the user keeps pressing Tab), the completion is pending for
    ever. *)
Lemma open_never_settles_without_completion_event :
  ¬ ∀ env : nat → Event,
      (∀ i modal target, env i ≠ AnimationEnd modal target) →
      ∃ n, listeners 1
             (run demo_page (step demo_page demo_init (ClickOpen "login"))
                (env <$> seq 0 n)) = [].
Proof.
  intros Hsettles.
  destruct (Hsettles (λ _, KeyDown "Tab" false (Some 1))) as [n Hn]; [done|].
  assert ({| l_id := 0; l_kind := Opening |}
          ∈ listeners 1
              (run demo_page (step demo_page demo_init (ClickOpen "login"))
                 ((λ _, KeyDown "Tab" false (Some 1)) <$> seq 0 n))) as Hin.
  { apply pending_run; [|vm_compute; left].
    apply Forall_fmap, Forall_forall. intros i _. cbn. done. }
  rewrite Hn in Hin. by apply elem_of_nil in Hin.
Qed.

(** C3, as amended: the completion awaited by [openModal] or [closeModal]
    settles when an [animationend] event whose target is the container
    itself reaches the container, and only then.  Whatever else the
    environment delivers (other requests, key presses, completion
    notifications that bubble up from descendants), a completion that is
    pending stays pending: there is no fallback timeout.  The event on the
    container leaves none pending, and resolves the promise of every closure
    registered on it. *)
Theorem completion_settles_only_on_animationend page m s :
  (∀ es l,
     Forall (λ e, e ≠ AnimationEnd m m) es →
     l ∈ listeners m s → l ∈ listeners m (run page s es))
  ∧ listeners m (step page s (AnimationEnd m m)) = []
  ∧ (NoDup (l_id <$> listeners m s) →
     ∀ l, l ∈ listeners m s →
          Resolved m (l_kind l) ∈ trace (step page s (AnimationEnd m m))).
Proof.
  split; [intros es l; apply pending_run|].
  split; [apply dispatch_animationend_settles|].
  intros Hnd l Hl. cbn [step]. unfold dispatch_animationend.
  apply flush_resolves; [done| |done].
  intros x Hx. by apply list_elem_of_fmap_2.
Qed.

Lemma completion_settles_only_on_animationend_witness :
  let s := step demo_page demo_init (ClickOpen "login") in
  {| l_id := 0; l_kind := Opening |}
    ∈ listeners 1
        (run demo_page s
           [KeyDown "Tab" false (Some 1); AnimationEnd 1 10;
            ClickOpen "register"; AnimationEnd 2 2])
  ∧ Resolved 1 Opening ∈ trace (step demo_page s (AnimationEnd 1 1)).
Proof.
  destruct (completion_settles_only_on_animationend demo_page 1
              (step demo_page demo_init (ClickOpen "login")))
    as (Hpending & _ & Hresolved).
  split.
  - apply Hpending.
    + repeat constructor; discriminate.
    + vm_compute. left.
  - apply (Hresolved ltac:(vm_compute; repeat constructor; apply not_elem_of_nil)
             {| l_id := 0; l_kind := Opening |}).
    vm_compute. left.
Defined.

(** ** Order of the side effects *)

Lemma well_ordered_trap_handler page t key shiftKey s :
  well_ordered (trace s) = true →
  well_ordered (trace (trap_handler page t key shiftKey s)) = true.
Proof.
  intros Hwo. unfold trap_handler, focus_and_prevent, focus.
  destruct (trap_last t), (trap_first t);
    repeat (match goal with |- context [if ?b then _ else _] => destruct b end);
    cbn; by rewrite ?Hwo.
Qed.

Lemma well_ordered_closeModal s :
  well_ordered (trace s) = true →
  well_ordered (trace (closeModal s)) = true.
Proof.
  intros Hwo. unfold closeModal, animateClose.
  destruct (activeModal s) as [m|]; [|done].
  destruct (elements s !! m) as [mel|] eqn:Hm; [|cbn; by rewrite Hwo].
  destruct (_trap mel) as [t|] eqn:Ht; cbn [mbind option_bind].
  - rewrite Ht.
    destruct (elements (emit _ (update m _ s)) !! m); cbn; by rewrite Hwo.
  - rewrite Ht, Hm. cbn. by rewrite Hwo.
Qed.

Lemma well_ordered_openModal page key s :
  well_ordered (trace s) = true →
  well_ordered (trace (openModal page key s)) = true.
Proof.
  intros Hwo. unfold openModal, animateOpen.
  destruct (modals page key) as [modal|]; [|done].
  destruct (activeModal s); [done|]. cbn [set_activeModal emit elements].
  destruct (elements s !! modal); cbn; by rewrite Hwo.
Qed.

Lemma well_ordered_run_onEnd page m target s l :
  well_ordered (trace s) = true →
  well_ordered (trace (run_onEnd page m target s l)) = true.
Proof.
  intros Hwo. unfold run_onEnd.
  destruct (bool_decide _); [|done]. destruct (target =? m); [|done].
  unfold onEnd. destruct (l_kind l); cbn [resume].
  - unfold openModal_resume, focus.
    destruct (has_header page), (el_node <$> head _) as [n|];
      try destruct (takes_focus page _ n); cbn; by rewrite Hwo.
  - unfold closeModal_resume. destruct (has_header page); cbn;
      by rewrite Hwo.
Qed.

Lemma well_ordered_step page s e :
  well_ordered (trace s) = true →
  well_ordered (trace (step page s e)) = true.
Proof.
  intros Hwo. destruct e as [key| |m target|key sh within|m target];
    cbn [step].
  - by apply well_ordered_openModal.
  - by apply well_ordered_closeModal.
  - destruct (target =? m); [|done]. by apply well_ordered_closeModal.
  - unfold dispatch_keydown.
    assert (well_ordered (trace
              match within with
              | Some modal => foldl (run_trap page key sh modal) s (traps modal s)
              | None => s
              end) = true) as Hwo'.
    { destruct within as [modal|]; [|done].
      generalize (traps modal s). intros ts. revert s Hwo.
      induction ts as [|t ts IH]; intros s Hwo; cbn [foldl]; [done|].
      apply IH. unfold run_trap. destruct (bool_decide _); [|done].
      by apply well_ordered_trap_handler. }
    destruct (String.eqb key "Escape"); [|done].
    by apply well_ordered_closeModal.
  - unfold dispatch_animationend. generalize (listeners m s). intros ls.
    revert s Hwo.
    induction ls as [|l ls IH]; intros s Hwo; cbn [foldl]; [done|].
    by apply IH, well_ordered_run_onEnd.
Qed.

(** What the continuation that runs after [onEnd] does to the slot, the
    scroll lock and the header marker. *)
Lemma chrome_resume_onEnd page m l s :
  let s' := resume page m (l_kind l) (onEnd m l s) in
  next_id s ≤ next_id s'
  ∧ match l_kind l with
    | Opening =>
        activeModal s' = activeModal s
        ∧ header_aria_hidden s'
          = (if has_header page then Some "true" else header_aria_hidden s)
        ∧ overflow s' = "hidden"
    | Closing =>
        activeModal s' = None ∧ overflow s' = ""
        ∧ header_aria_hidden s'
          = if has_header page then None else header_aria_hidden s
    end.
Proof.
  cbn zeta. unfold onEnd. destruct (l_kind l); cbn [resume].
  - unfold openModal_resume, focus.
    destruct (has_header page), (el_node <$> head _) as [n|];
      try destruct (takes_focus page _ n); cbn; auto with lia.
  - unfold closeModal_resume. destruct (has_header page); cbn; auto with lia.
Qed.

Lemma quiet_trap_handler page t key shiftKey s :
  overflow (trap_handler page t key shiftKey s) = overflow s
  ∧ header_aria_hidden (trap_handler page t key shiftKey s) = header_aria_hidden s
  ∧ activeModal (trap_handler page t key shiftKey s) = activeModal s.
Proof.
  unfold trap_handler, focus_and_prevent, focus.
  destruct (trap_last t), (trap_first t);
    repeat (match goal with |- context [if ?b then _ else _] => destruct b end);
    done.
Qed.

Lemma quiet_closeModal s :
  overflow (closeModal s) = overflow s
  ∧ header_aria_hidden (closeModal s) = header_aria_hidden s
  ∧ activeModal (closeModal s) = activeModal s.
Proof.
  unfold closeModal, animateClose.
  destruct (activeModal s) as [m|] eqn:Ha; [|done].
  destruct (elements s !! m) as [mel|] eqn:Hm; [|done].
  destruct (_trap mel) as [t|] eqn:Ht; cbn [mbind option_bind]; rewrite Ht.
  - by destruct (elements (emit _ (update m _ s)) !! m).
  - by rewrite Hm.
Qed.

(** C2: the side effects are ordered around the transitions.  No event other
    than [animationend] on a container itself changes the scroll lock or the
    header marker or empties the active-dialog slot: not the open request,
    not the close request, not a notification that bubbled up from a
    descendant.  When [onEnd] resolves a promise, the transition marker is
    already removed, the listener deregistered and, for a close, the
    container hidden, while lock, marker and slot are still as before.  And
    in every execution the log of effects is well ordered: the scroll lock
    is applied right after the resolution of an opening transition and the
    header marked right after it; the slot is cleared right after the
    resolution of a closing transition, then the scroll is unlocked and the
    header marker removed.  On the state: the continuation that runs once
    [onEnd] has resolved the promise of an open leaves the scroll locked and
    the header (when there is one) marked, and the slot as it was; the one
    that runs after a close leaves the scroll unlocked, the header unmarked
    and the slot empty.  The [animationend] event on a container with one
    pending completion does exactly that: [onEnd], then the continuation;
    on a container with nothing pending it changes nothing. *)
Theorem side_effects_follow_resolution page :
  (∀ s e,
     (∀ m, e ≠ AnimationEnd m m) →
     overflow (step page s e) = overflow s
     ∧ header_aria_hidden (step page s e) = header_aria_hidden s
     ∧ (is_Some (activeModal s) → is_Some (activeModal (step page s e))))
  ∧ (∀ s m mel l,
       elements s !! m = Some mel →
       let s' := onEnd m l s in
       trace s' = Resolved m (l_kind l) :: trace s
       ∧ (marker (l_kind l) ∉ class_list m s')
       ∧ (l ∉ listeners m s')
       ∧ (l_kind l = Closing → is_hidden m s' = Some true)
       ∧ overflow s' = overflow s
       ∧ header_aria_hidden s' = header_aria_hidden s
       ∧ activeModal s' = activeModal s)
  ∧ (∀ s es,
       well_ordered (trace s) = true →
       well_ordered (trace (run page s es)) = true)
  ∧ (∀ s m l,
       let s' := onEnd m l s in
       let s'' := resume page m (l_kind l) s' in
       match l_kind l with
       | Opening =>
           overflow s'' = "hidden"
           ∧ header_aria_hidden s''
             = (if has_header page then Some "true" else header_aria_hidden s)
           ∧ activeModal s'' = activeModal s
       | Closing =>
           overflow s'' = ""
           ∧ header_aria_hidden s''
             = (if has_header page then None else header_aria_hidden s)
           ∧ activeModal s'' = None
       end)
  ∧ (∀ s m mel l,
       elements s !! m = Some mel →
       animationend mel = [l] →
       step page s (AnimationEnd m m)
       = resume page m (l_kind l) (onEnd m l s))
  ∧ (∀ s m, listeners m s = [] → step page s (AnimationEnd m m) = s).
Proof.
  split; [|split; [|split; [|split; [|split]]]].
  6: { intros s m Hnil. cbn [step]. unfold dispatch_animationend.
       by rewrite Hnil. }
  4: { intros s m l. cbn zeta.
       destruct (chrome_resume_onEnd page m l s) as [_ Hchrome].
       destruct (l_kind l); tauto. }
  4: { intros s m mel l Hm Hls. cbn [step]. unfold dispatch_animationend.
       rewrite (listeners_Some _ _ _ Hm), Hls. cbn [foldl].
       apply (run_onEnd_registered page m s l mel Hm).
       rewrite Hls. cbn. left. }
  - intros s e He.
    destruct e as [key| |m target|key sh within|m target]; cbn [step].
    + unfold openModal, animateOpen.
      destruct (modals page key) as [modal|]; [|done].
      destruct (activeModal s) eqn:Ha; [done|].
      cbn [set_activeModal emit elements].
      destruct (elements s !! modal); cbn; eauto.
    + destruct (quiet_closeModal s) as (-> & -> & ->). done.
    + destruct (target =? m); [|done].
      destruct (quiet_closeModal s) as (-> & -> & ->). done.
    + unfold dispatch_keydown.
      set (s1 := match within with
                 | Some modal =>
                     foldl (run_trap page key sh modal) s (traps modal s)
                 | None => s
                 end).
      assert (overflow s1 = overflow s
              ∧ header_aria_hidden s1 = header_aria_hidden s
              ∧ activeModal s1 = activeModal s) as (Ho & Hh & Ha).
      { subst s1. destruct within as [modal|]; [|done].
        generalize (traps modal s). intros ts.
        assert (∀ s0, overflow (foldl (run_trap page key sh modal) s0 ts)
                      = overflow s0
                      ∧ header_aria_hidden (foldl (run_trap page key sh modal) s0 ts)
                        = header_aria_hidden s0
                      ∧ activeModal (foldl (run_trap page key sh modal) s0 ts)
                        = activeModal s0) as Hall; [|apply Hall].
        induction ts as [|t ts IH]; intros s0; cbn [foldl]; [done|].
        destruct (IH (run_trap page key sh modal s0 t)) as (-> & -> & ->).
        unfold run_trap. destruct (bool_decide _); [|done].
        apply quiet_trap_handler. }
      destruct (String.eqb key "Escape").
      * destruct (quiet_closeModal s1) as (-> & -> & ->).
        by rewrite Ho, Hh, Ha.
      * by rewrite Ho, Hh, Ha.
    + destruct (decide (target = m)) as [->|Hne]; [by destruct (He m)|].
      by rewrite dispatch_animationend_bubbled.
  - intros s m mel l Hm. cbn zeta. rewrite (onEnd_Some _ _ _ _ Hm).
    unfold class_list, listeners, is_hidden. cbn [elements trace overflow
      header_aria_hidden activeModal]. rewrite lookup_insert_eq.
    cbn [from_option fmap option_fmap option_map classes animationend hidden].
    split; [done|]. split.
    { unfold classList_remove. intros [H _]%list_elem_of_filter.
      by apply H. }
    split.
    { intros [H _]%list_elem_of_filter. by apply H. }
    split; [by intros ->|done].
  - intros s es. revert s. unfold run.
    induction es as [|e es IH]; intros s Hwo; cbn [foldl]; [done|].
    by apply IH, well_ordered_step.
Qed.

Lemma side_effects_follow_resolution_witness :
  let s := run demo_page demo_init
             [ClickOpen "login"; AnimationEnd 1 10; AnimationEnd 1 1;
              KeyDown "Escape" false (Some 1); AnimationEnd 1 1] in
  let opening := step demo_page demo_init (ClickOpen "login") in
  overflow opening = ""
  ∧ well_ordered (trace s) = true
  ∧ overflow (step demo_page opening (AnimationEnd 1 1)) = "hidden"
  ∧ header_aria_hidden (step demo_page opening (AnimationEnd 1 1))
    = Some "true".
Proof.
  destruct (side_effects_follow_resolution demo_page)
    as (Hquiet & _ & Hwo & Hresume & Hend & _).
  split; [|split].
  - refine (proj1 (Hquiet demo_init (ClickOpen "login") _)).
    intros m. discriminate.
  - apply Hwo. reflexivity.
  - pose (l := {| l_id := 0; l_kind := Opening |}).
    pose (mel := {| hidden := false; classes := ["modal"; "is-opening"];
                    animationend := [l]; keydown := []; _trap := None;
                    descendants := login_descendants |}).
    rewrite (Hend (step demo_page demo_init (ClickOpen "login")) 1 mel l
               eq_refl eq_refl).
    destruct (Hresume (step demo_page demo_init (ClickOpen "login")) 1 l)
      as (Ho & Hh & _).
    split; [exact Ho | exact Hh].
Defined.

(** ** A single active dialog *)

Lemma run_onEnd_explicit page m s l mel :
  elements s !! m = Some mel →
  l_id l ∈ l_id <$> animationend mel →
  ∃ mel',
    elements (run_onEnd page m m s l) = <[m := mel']> (elements s)
    ∧ classes mel' = classList_remove (marker (l_kind l)) (classes mel)
    ∧ animationend mel' = filter (λ l', l_id l' ≠ l_id l) (animationend mel)
    ∧ hidden mel' = match l_kind l with
                    | Opening => hidden mel
                    | Closing => true
                    end
    ∧ activeModal (run_onEnd page m m s l)
      = match l_kind l with
        | Opening => activeModal s
        | Closing => None
        end.
Proof.
  intros Hm Hl. rewrite (run_onEnd_registered _ _ _ _ _ Hm Hl).
  rewrite (onEnd_Some _ _ _ _ Hm). destruct (l_kind l); cbn [resume].
  - erewrite openModal_resume_Some by (cbn [elements]; apply lookup_insert_eq).
    cbn. rewrite insert_insert_eq. eexists. split; [reflexivity|]. done.
  - unfold closeModal_resume. destruct (has_header page); cbn;
      (eexists; split; [reflexivity|]; done).
Qed.

Section Flush.

Variables (page : Page) (m : Node) (mel0 : Modal) (s0 : State).
Hypothesis Hconsistent : consistent s0.
Hypothesis Hmel0 : elements s0 !! m = Some mel0.

Lemma flushing_run_onEnd s l :
  l ∈ animationend mel0 →
  flushing m mel0 s0 s → flushing m mel0 s0 (run_onEnd page m m s l).
Proof.
  intros Hl (Hothers & mel & Hm & Hcl & Hls & Hhid & Hact).
  destruct (decide (l_id l ∈ l_id <$> animationend mel)) as [Hreg|Hreg].
  2: { rewrite run_onEnd_removed; [by repeat (split || eexists)|].
       by rewrite (listeners_Some _ _ _ Hm). }
  destruct (run_onEnd_explicit page m s l mel Hm Hreg)
    as (mel' & Hels & Hcl' & Hls' & Hhid' & Hact').
  split.
  { intros m' Hne. rewrite Hels, lookup_insert_ne by done. by apply Hothers. }
  exists mel'. rewrite Hels, lookup_insert_eq. split; [done|].
  split.
  { intros tok. rewrite Hcl'. intros [_ ?]%elem_of_classList_remove. auto. }
  split.
  { intros l'. rewrite Hls'. intros [_ ?]%list_elem_of_filter. auto. }
  split.
  { rewrite Hhid'. destruct (l_kind l); [done|]. done. }
  rewrite Hact', Hcl', Hhid'. destruct (l_kind l) eqn:Hk; cbn [marker].
  - destruct Hact as [Hact|(Hnone & Hne & Hh & Hc & Ho)]; [by left|right].
    split; [done|]. split; [done|]. split; [done|].
    rewrite !elem_of_classList_remove. tauto.
  - right. split; [done|]. split.
    { intros Hnil. rewrite Hnil in Hl. by apply elem_of_nil in Hl. }
    split; [done|]. rewrite !elem_of_classList_remove.
    split; [tauto|]. intros [_ Hin].
    destruct (Hconsistent m mel0 Hmel0) as [_ Hopen].
    apply Hopen; [by exists l | by apply Hcl].
Qed.

Lemma flushing_foldl ls s :
  (∀ l, l ∈ ls → l ∈ animationend mel0) →
  flushing m mel0 s0 s →
  flushing m mel0 s0 (foldl (run_onEnd page m m) s ls).
Proof.
  revert s. induction ls as [|l ls IH]; intros s Hls Hs; cbn [foldl]; [done|].
  apply IH; [intros l' Hl'; apply Hls; by right|].
  apply flushing_run_onEnd; [apply Hls; by left | done].
Qed.

Lemma consistent_flush : consistent (dispatch_animationend page m m s0).
Proof.
  assert (flushing m mel0 s0 (dispatch_animationend page m m s0))
    as (Hothers & mel & Hm & Hcl & Hls & Hhid & Hact).
  { unfold dispatch_animationend. rewrite (listeners_Some _ _ _ Hmel0).
    apply flushing_foldl; [done|].
    split; [done|]. exists mel0. repeat split; auto. }
  pose proof (dispatch_animationend_settles page m s0) as Hnil.
  rewrite (listeners_Some _ _ _ Hm) in Hnil.
  destruct (Hconsistent m mel0 Hmel0) as [Hslot0 _].
  intros m' mel' Hm'. destruct (decide (m' = m)) as [->|Hne].
  - rewrite Hm in Hm'. injection Hm' as <-. split.
    + intros Heng. destruct Hact as [->|(_ & _ & Hh & Hc & Ho)].
      * apply Hslot0.
        destruct Heng as [Heng|[Heng|[Heng|Heng]]];
          [left; auto | right; left; auto | right; right; left; auto | done].
      * destruct Heng as [Heng|[Heng|[Heng|Heng]]]; [congruence|done..].
    + intros (l & Hl & _). rewrite Hnil in Hl. by apply elem_of_nil in Hl.
  - rewrite (Hothers m' Hne) in Hm'.
    destruct (Hconsistent m' mel' Hm') as [Hslot Hopen]. split; [|done].
    intros Heng. specialize (Hslot Heng).
    destruct Hact as [->|(_ & Hnonempty & _)]; [done|].
    assert (activeModal s0 = Some m) as Hactive
      by (apply Hslot0; by repeat right).
    congruence.
Qed.

End Flush.

Lemma consistent_ext s s' :
  elements s' = elements s → activeModal s' = activeModal s →
  consistent s → consistent s'.
Proof. unfold consistent. intros -> ->. done. Qed.

Lemma consistent_idle s m mel :
  consistent s → activeModal s = None → elements s !! m = Some mel →
  ¬ engaged mel.
Proof.
  intros Hc Hnone Hm Heng. destruct (Hc m mel Hm) as [Hslot _].
  specialize (Hslot Heng). congruence.
Qed.

Lemma consistent_openModal page key s :
  consistent s → consistent (openModal page key s).
Proof.
  intros Hc. unfold openModal. destruct (modals page key) as [modal|]; [|done].
  destruct (activeModal s) eqn:Hnone; [done|].
  destruct (elements s !! modal) as [mel|] eqn:Hmodal.
  - erewrite animateOpen_Some by exact Hmodal.
    intros m mel'. cbn [elements activeModal emit set_activeModal].
    destruct (decide (m = modal)) as [->|Hne].
    + rewrite lookup_insert_eq. intros [= <-]. split; [done|].
      cbn [animationend classes]. intros (l & Hl & Hk).
      assert (animationend mel = []) as Hnil.
      { destruct (animationend mel) eqn:Hls; [done|].
        destruct (consistent_idle s modal mel Hc Hnone Hmodal).
        repeat right. by rewrite Hls. }
      rewrite Hnil in Hl. apply list_elem_of_singleton in Hl. by subst.
    + rewrite lookup_insert_ne by done. intros Hm.
      destruct (Hc m mel' Hm) as [_ Hopen]. split; [|done].
      intros Heng. by destruct (consistent_idle s m mel' Hc Hnone Hm).
  - rewrite animateOpen_None by exact Hmodal.
    intros m mel' Hm. cbn in Hm. destruct (Hc m mel' Hm) as [_ Hopen].
    split; [|done].
    intros Heng. by destruct (consistent_idle s m mel' Hc Hnone Hm).
Qed.

Lemma consistent_closeModal s :
  consistent s → consistent (closeModal s).
Proof.
  intros Hc. destruct (activeModal s) as [m0|] eqn:Ha.
  2: { unfold closeModal. by rewrite Ha. }
  destruct (elements s !! m0) as [mel|] eqn:Hm0.
  - rewrite (closeModal_Some s m0 mel Ha Hm0).
    intros m mel'. cbn [elements activeModal].
    destruct (decide (m = m0)) as [->|Hne].
    + rewrite lookup_insert_eq. intros [= <-]. split; [done|].
      intros _. cbn [classes].
      rewrite elem_of_classList_add, elem_of_classList_remove.
      intros [?|[? _]]; done.
    + rewrite lookup_insert_ne by done. intros Hm. rewrite <- Ha.
      by apply Hc.
  - rewrite (closeModal_None s m0 Ha Hm0).
    by apply (consistent_ext s).
Qed.

Lemma consistent_step page s e :
  consistent s → consistent (step page s e).
Proof.
  intros Hc. destruct e as [key| |m target|key sh within|m target];
    cbn [step].
  - by apply consistent_openModal.
  - by apply consistent_closeModal.
  - destruct (target =? m); [|done]. by apply consistent_closeModal.
  - unfold dispatch_keydown.
    assert (consistent
              match within with
              | Some modal => foldl (run_trap page key sh modal) s (traps modal s)
              | None => s
              end) as Hc'.
    { destruct within as [modal|]; [|done].
      destruct (elements_traps_run page key sh modal s (traps modal s))
        as [Hel Hact].
      by apply (consistent_ext s). }
    destruct (String.eqb key "Escape"); [|done].
    by apply consistent_closeModal.
  - destruct (decide (target = m)) as [->|Hne].
    + destruct (elements s !! m) as [mel|] eqn:Hm.
      * by apply (consistent_flush page m mel s).
      * unfold dispatch_animationend, listeners. by rewrite Hm.
    + by rewrite dispatch_animationend_bubbled.
Qed.

Lemma consistent_run page s es :
  consistent s → consistent (run page s es).
Proof.
  revert s. unfold run.
  induction es as [|e es IH]; intros s Hc; cbn [foldl]; [done|].
  by apply IH, consistent_step.
Qed.

Lemma at_rest_consistent s : at_rest s → consistent s.
Proof.
  intros [Hnone Hidle] m mel Hm. split.
  - intros Heng. by destruct (Hidle m mel Hm).
  - intros (l & Hl & _) _. apply (Hidle m mel Hm). repeat right.
    intros Hnil. rewrite Hnil in Hl. by apply elem_of_nil in Hl.
Qed.

(** An open request is a no-op, leaving the active dialog and the whole
    state unchanged, whenever a dialog is active (the slot is occupied, be
    the dialog opening, open or closing) and whenever [modals] has no
    property of that name, own or inherited.  Consequently, in every
    execution that starts on a page at rest, a container that is shown or in
    a transition is the one named by the slot, so that at most one dialog is
    active at any instant. *)
Theorem open_request_ignored_while_active page :
  (∀ s key,
     is_Some (activeModal s) ∨ modals page key = None →
     openModal page key s = s ∧ step page s (ClickOpen key) = s)
  ∧ (∀ s es,
       at_rest s →
       let s' := run page s es in
       (∀ m mel,
          elements s' !! m = Some mel → engaged mel →
          activeModal s' = Some m)
       ∧ (∀ m1 m2 mel1 mel2,
            elements s' !! m1 = Some mel1 → engaged mel1 →
            elements s' !! m2 = Some mel2 → engaged mel2 →
            m1 = m2)).
Proof.
  split.
  - intros s key Hor.
    assert (openModal page key s = s) as Hopen; [|by split].
    unfold openModal. destruct (modals page key); [|done].
    destruct Hor as [[m Hm]|?]; [|done]. by rewrite Hm.
  - intros s es Hrest. cbn zeta.
    pose proof (consistent_run page s es (at_rest_consistent s Hrest)) as Hc.
    assert (∀ m mel,
              elements (run page s es) !! m = Some mel → engaged mel →
              activeModal (run page s es) = Some m) as Hslot.
    { intros m mel Hm Heng. by destruct (Hc m mel Hm) as [-> _]. }
    split; [done|].
    intros m1 m2 mel1 mel2 Hm1 He1 Hm2 He2.
    pose proof (Hslot m1 mel1 Hm1 He1). pose proof (Hslot m2 mel2 Hm2 He2).
    congruence.
Qed.

Lemma demo_init_at_rest : at_rest demo_init.
Proof.
  split; [done|]. intros m mel Hm. cbn in Hm.
  apply lookup_insert_Some in Hm as [[_ <-]|[_ Hm]];
    [|apply lookup_insert_Some in Hm as [[_ <-]|[_ Hm]];
      [|by rewrite lookup_empty in Hm]].
  all: intros [Hh|[Ho|[Hc|Hl]]]; [done| | |done].
  all: apply list_elem_of_singleton in Ho || apply list_elem_of_singleton in Hc;
    done.
Qed.

Lemma open_request_ignored_while_active_witness :
  let opening := step demo_page demo_init (ClickOpen "login") in
  step demo_page opening (ClickOpen "register") = opening
  ∧ step demo_page demo_init (ClickOpen "signup") = demo_init
  ∧ activeModal
      (run demo_page demo_init
         [ClickOpen "login"; ClickOpen "register"; AnimationEnd 1 1])
    = Some 1.
Proof.
  destruct (open_request_ignored_while_active demo_page) as [Hignored Hslot].
  split; [|split].
  - apply (Hignored (step demo_page demo_init (ClickOpen "login")) "register").
    left. by eexists.
  - apply (Hignored demo_init "signup"). by right.
  - destruct (Hslot demo_init
                [ClickOpen "login"; ClickOpen "register"; AnimationEnd 1 1]
                demo_init_at_rest) as [H _].
    eapply (H 1); [vm_compute; reflexivity|]. by left.
Defined.

(** ** An open request for a key that [modals] inherits *)

Lemma demo_init_quiet m mel :
  elements demo_init !! m = Some mel → animationend mel = [].
Proof.
  intros Hm. cbn in Hm.
  apply lookup_insert_Some in Hm as [[_ <-]|[_ Hm]]; [done|].
  apply lookup_insert_Some in Hm as [[_ <-]|[_ Hm]]; [done|].
  by rewrite lookup_empty in Hm.
Qed.

Lemma stuck_step s e :
  activeModal s = Some 100 → elements s = elements demo_init →
  activeModal (step demo_page s e) = Some 100
  ∧ elements (step demo_page s e) = elements demo_init.
Proof.
  intros Ha He.
  assert (∀ s1, activeModal s1 = Some 100 →
                elements s1 = elements demo_init →
                closeModal s1 = emit TypeErrorThrown s1) as Hclose.
  { intros s1 Ha1 He1. apply (closeModal_None s1 100 Ha1). by rewrite He1. }
  destruct e as [key| |m target|key sh within|m target]; cbn [step].
  - unfold openModal. destruct (modals demo_page key); [|done].
    by rewrite Ha.
  - by rewrite Hclose.
  - destruct (target =? m); [by rewrite Hclose | done].
  - unfold dispatch_keydown.
    set (s1 := match within with
               | Some modal =>
                   foldl (run_trap demo_page key sh modal) s (traps modal s)
               | None => s
               end).
    assert (elements s1 = elements s ∧ activeModal s1 = activeModal s)
      as [He1 Ha1].
    { subst s1. destruct within as [modal|]; [|done].
      apply elements_traps_run. }
    rewrite He in He1. rewrite Ha in Ha1.
    destruct (String.eqb key "Escape"); [by rewrite Hclose | done].
  - unfold dispatch_animationend, listeners. rewrite He.
    destruct (elements demo_init !! m) as [mel|] eqn:Hm; [|done].
    cbn [from_option]. by rewrite (demo_init_quiet m mel Hm).
Qed.

(** C1, at the input on which the code breaks it: an open request whose key
    is a property name that the object literal [modals] inherits from
    [Object.prototype] (here constructor).  No dialog is active and the key
    maps to no dialog, yet the request is not ignored: the inherited
    function passes the guard and takes the active-dialog slot, and
    [animateOpen] throws on it, since it is not an element.  From then on
    the page is stuck: a request to open the login dialog is ignored, a
    close request throws on the same object before it could clear the slot,
    and whatever requests, key presses and transition ends follow, the slot
    stays occupied and no container is ever touched. *)
Theorem open_inherited_key_takes_slot :
  let s := step demo_page demo_init (ClickOpen "constructor") in
  activeModal demo_init = None
  ∧ modals demo_page "constructor" = Some 100
  ∧ elements demo_init !! 100 = None
  ∧ s ≠ demo_init
  ∧ activeModal s = Some 100
  ∧ trace s = [TypeErrorThrown; ActiveSet 100]
  ∧ step demo_page s (ClickOpen "login") = s
  ∧ step demo_page s ClickClose = emit TypeErrorThrown s
  ∧ ∀ es,
      activeModal (run demo_page s es) = Some 100
      ∧ elements (run demo_page s es) = elements demo_init.
Proof.
  cbn zeta. split; [done|]. split; [done|]. split; [done|].
  split; [by intros [=]|]. split; [done|]. split; [done|].
  split; [done|]. split; [done|].
  intros es. unfold run.
  assert (∀ s, activeModal s = Some 100 →
               elements s = elements demo_init →
               activeModal (foldl (step demo_page) s es) = Some 100
               ∧ elements (foldl (step demo_page) s es)
                 = elements demo_init) as Hall; [|by apply Hall].
  induction es as [|e es IH]; intros s Ha He; cbn [foldl]; [done|].
  destruct (stuck_step s e Ha He). by apply IH.
Qed.

(** * Further properties *)

(** ** What the patterns accept *)

Lemma matchHere_to_end p lo hi b s :
  matchHere (Cls p lo hi (Eos Accept)) b s = true
  ↔ lo ≤ length s ∧ (∀ h, hi = Some h → length s ≤ h) ∧ forallb p s = true.
Proof.
  change (rep p (matchHere (Eos Accept)) lo hi b s = true
          ↔ lo ≤ length s ∧ (∀ h, hi = Some h → length s ≤ h)
            ∧ forallb p s = true).
  rewrite rep_true. split.
  - intros (n & Hlo & Hn & Hhi & Hall & Hk). simpl in Hk.
    destruct (drop n s) eqn:Hd; [|done].
    apply drop_nil_inv in Hd. assert (n = length s) as -> by lia.
    rewrite firstn_all in Hall. done.
  - intros (Hlo & Hhi & Hall). exists (length s).
    rewrite firstn_all, drop_all. simpl. done.
Qed.

(** [re.username] accepts exactly the strings of 3 to 20 code units that are
    all ASCII letters, digits or underscores. *)
Theorem test_username_true s :
  test re.username s = true
  ↔ 3 ≤ length s ≤ 20 ∧ forallb cls_username s = true.
Proof.
  unfold re.username. rewrite test_Bos, matchHere_to_end. split.
  - intros (Hlo & Hhi & Hall). specialize (Hhi 20 eq_refl). done.
  - intros ((Hlo & Hhi) & Hall). split; [done|]. split; [|done].
    by intros h [= <-].
Qed.

Lemma matchHere_class p lo rest b s :
  matchHere (Cls p lo None rest) b s = true
  ↔ ∃ s1 s2, s = s1 ++ s2 ∧ lo ≤ length s1 ∧ forallb p s1 = true
             ∧ matchHere rest (b && bool_decide (length s1 = 0)) s2 = true.
Proof.
  change (rep p (matchHere rest) lo None b s = true
          ↔ ∃ s1 s2, s = s1 ++ s2 ∧ lo ≤ length s1 ∧ forallb p s1 = true
             ∧ matchHere rest (b && bool_decide (length s1 = 0)) s2 = true).
  rewrite rep_true. split.
  - intros (n & Hlo & Hn & _ & Hall & Hk).
    exists (take n s), (drop n s). rewrite take_drop, length_take_le by done.
    done.
  - intros (s1 & s2 & -> & Hlo & Hall & Hk). exists (length s1).
    rewrite take_app_length, drop_app_length, length_app.
    split; [done|]. split; [lia|]. done.
Qed.

Lemma matchHere_lit a rest b s :
  matchHere (lit a rest) b s = true
  ↔ ∃ s', s = N_of_ascii a :: s' ∧ matchHere rest false s' = true.
Proof.
  unfold lit.
  change (rep (is_char a) (matchHere rest) 1 (Some 1) b s = true
          ↔ ∃ s', s = N_of_ascii a :: s' ∧ matchHere rest false s' = true).
  destruct s as [|c s]; cbn [rep].
  - split; [done | by intros (? & ? & _)].
  - cbn [orb pred fmap option_fmap option_map]. unfold is_char at 1.
    rewrite andb_true_r.
    assert (rep (is_char a) (matchHere rest) 0 (Some 0) false s
            = matchHere rest false s) as ->.
    { destruct s; cbn [rep]; by rewrite ?andb_false_r, ?orb_false_r. }
    rewrite andb_true_iff, N.eqb_eq. split.
    + intros [-> Hk]. eauto.
    + intros (s' & [= -> ->] & Hk). done.
Qed.

(** [re.email] accepts exactly the strings local@domain.tld where local and
    domain are not empty, tld has two code units or more, and no part holds
    white space or an at sign (the domain may hold further dots). *)
Theorem test_email_true s :
  test re.email s = true
  ↔ ∃ local domain tld,
      s = local ++ codes "@" ++ domain ++ codes "." ++ tld
      ∧ 1 ≤ length local ∧ 1 ≤ length domain ∧ 2 ≤ length tld
      ∧ forallb cls_not_space_at local = true
      ∧ forallb cls_not_space_at domain = true
      ∧ forallb cls_not_space_at tld = true.
Proof.
  unfold re.email. rewrite test_Bos, matchHere_class. split.
  - intros (local & s2 & -> & Hl & Hla & Hk).
    apply matchHere_lit in Hk as (s3 & -> & Hk).
    apply matchHere_class in Hk as (domain & s4 & -> & Hd & Hda & Hk).
    apply matchHere_lit in Hk as (tld & -> & Hk).
    apply matchHere_to_end in Hk as (Ht & _ & Hta).
    exists local, domain, tld. done.
  - intros (local & domain & tld & -> & Hl & Hd & Ht & Hla & Hda & Hta).
    exists local, (codes "@" ++ domain ++ codes "." ++ tld).
    split; [done|]. split; [done|]. split; [done|].
    apply matchHere_lit. eexists. split; [reflexivity|].
    apply matchHere_class. exists domain, (codes "." ++ tld).
    split; [done|]. split; [done|]. split; [done|].
    apply matchHere_lit. eexists. split; [reflexivity|].
    apply matchHere_to_end. done.
Qed.

Lemma test_username_true_witness :
  test re.username (codes "user_01") = true.
Proof.
  apply (proj2 (test_username_true (codes "user_01"))).
  split; [vm_compute; lia | reflexivity].
Defined.

Lemma test_email_true_witness :
  test re.email (codes "ann@mail.example.org") = true.
Proof.
  apply (proj2 (test_email_true (codes "ann@mail.example.org"))).
  exists (codes "ann"), (codes "mail.example"), (codes "org").
  split; [reflexivity|]. vm_compute. repeat split; lia.
Defined.

(** ** Trimming *)

(** [trim] only removes white space, from the two ends: the value is the
    trimmed value between two runs of white space; the trimmed value neither
    starts nor ends with white space, so that trimming again changes nothing;
    and padding a value with white space does not change its trimmed form. *)
Theorem trim_strips_both_ends s :
  (∃ ws1 ws2,
     s = ws1 ++ trim s ++ ws2
     ∧ forallb is_space ws1 = true ∧ forallb is_space ws2 = true)
  ∧ (is_space <$> head (trim s)) ≠ Some true
  ∧ (is_space <$> last (trim s)) ≠ Some true
  ∧ trim (trim s) = trim s
  ∧ (∀ ws1 ws2,
       forallb is_space ws1 = true → forallb is_space ws2 = true →
       trim (ws1 ++ s ++ ws2) = trim s).
Proof.
  split; [|split; [|split; [|split]]].
  - destruct (trimStart_split s) as (ws1 & Hs1 & H1).
    destruct (trimEnd_split (trimStart s)) as (ws2 & Hs2 & H2).
    exists ws1, ws2. split; [|done]. unfold trim.
    by rewrite <- Hs2, <- Hs1.
  - pose proof (trim_head s) as H. destruct (trim s); [done|].
    cbn. by rewrite H.
  - pose proof (trimEnd_last (trimStart s)) as H. fold (trim s) in H.
    rewrite <- (rev_involutive (trim s)).
    destruct (rev (trim s)) as [|c r]; [done|].
    cbn [rev]. rewrite last_snoc. cbn. by rewrite H.
  - apply trim_trim.
  - intros ws1 ws2. apply trim_padded.
Qed.

Lemma trim_strips_both_ends_witness :
  trim (codes "  " ++ codes "a b" ++ codes " ") = trim (codes "a b").
Proof.
  destruct (trim_strips_both_ends (codes "a b")) as (_ & _ & _ & _ & H).
  apply H; reflexivity.
Defined.

(** ** Validation of a field *)

(** White space around a value never changes the outcome of the validation:
    the padded value gets the same verdict and, when the field has a
    group to show it in, the same message. *)
Theorem validateField_ignores_padding rnd rnd' input input' ws1 ws2 :
  name input' = name input →
  value input' = ws1 ++ value input ++ ws2 →
  forallb is_space ws1 = true → forallb is_space ws2 = true →
  invalid (validateField rnd' input') = invalid (validateField rnd input)
  ∧ (is_Some (closest_field input) → is_Some (closest_field input') →
     shown_message (validateField rnd' input')
     = shown_message (validateField rnd input)).
Proof.
  intros Hn Hv H1 H2. rewrite !validateField_by_rules, Hn, Hv.
  rewrite (trim_padded _ _ _ H1 H2).
  destruct (spec_first_failing _ _) as [msg|]; split; try done.
  - intros [g Hg] [g' Hg']. by rewrite !shown_message_setError, Hg, Hg'.
  - intros _ _. by rewrite !shown_message_clearError.
Qed.

Lemma validateField_ignores_padding_witness :
  invalid (validateField [] (text_input "username" "  bob  "))
  = invalid (validateField [] (text_input "username" "bob")).
Proof.
  refine (proj1 (validateField_ignores_padding [] []
                   (text_input "username" "bob")
                   (text_input "username" "  bob  ")
                   (codes "  ") (codes "  ") eq_refl eq_refl eq_refl eq_refl)).
Defined.

Lemma trim_spaces ws : forallb is_space ws = true → trim ws = [].
Proof.
  intros H. rewrite <- (app_nil_r ws), <- (app_nil_r (ws ++ [])).
  rewrite <- app_assoc. by rewrite (trim_padded ws [] [] H eq_refl).
Qed.

(** A value made of white space only counts as missing: each of the three
    known fields reports its required message, never its format message. *)
Theorem validateField_blank_is_missing rnd input :
  forallb is_space (value input) = true →
  (name input = codes "username" →
   validateField rnd input = setError rnd input "Введіть ім’я користувача")
  ∧ (name input = codes "email" →
     validateField rnd input = setError rnd input "Введіть email")
  ∧ (name input = codes "password" →
     validateField rnd input = setError rnd input "Введіть пароль").
Proof.
  intros Hws. unfold validateField. rewrite (trim_spaces _ Hws).
  repeat split; intros ->; reflexivity.
Qed.

Lemma validateField_blank_is_missing_witness :
  shown_message (validateField [] (text_input "email" "   "))
  = Some "Введіть email".
Proof.
  destruct (validateField_blank_is_missing [] (text_input "email" "   ")
              eq_refl) as (_ & H & _).
  rewrite (H eq_refl). reflexivity.
Defined.

(** ** The error presenter *)

Lemma classList_add_idemp tok cl :
  classList_add tok (classList_add tok cl) = classList_add tok cl.
Proof.
  unfold classList_add at 1.
  rewrite bool_decide_eq_true_2; [done|].
  apply elem_of_classList_add. by left.
Qed.

Lemma classList_remove_idemp tok cl :
  classList_remove tok (classList_remove tok cl) = classList_remove tok cl.
Proof.
  unfold classList_remove. apply filter_all.
  by intros t [? _]%list_elem_of_filter.
Qed.

Lemma ensureErrorEl_id rnd input :
  ∃ c id, err_id (ensureErrorEl rnd input) = c :: id.
Proof.
  unfold ensureErrorEl.
  destruct (err_id match closest_field input ≫= field_error with
                   | Some err => err
                   | None => _
                   end) as [|c id] eqn:Hid.
  - destruct (name input); cbn; eauto.
  - rewrite Hid. eauto.
Qed.

Lemma setError_setError rnd rnd' input msg msg' :
  is_Some (closest_field input) →
  setError rnd' (setError rnd input msg) msg' = setError rnd input msg'.
Proof.
  intros [g Hg]. destruct (ensureErrorEl_id rnd input) as (c & id & Hid).
  unfold setError at 1. unfold ensureErrorEl at 1 2.
  unfold setError at 1 2 3 4. rewrite !Hg. cbn. rewrite !Hid.
  unfold setError. rewrite Hg. cbn. by rewrite classList_add_idemp, Hid.
Qed.

Lemma clearError_clearError input :
  clearError (clearError input) = clearError input.
Proof.
  unfold clearError. cbn [name value aria_describedby closest_field].
  destruct (closest_field input) as [g|]; [|done].
  cbn [fmap option_fmap option_map field_classList field_error].
  rewrite classList_remove_idemp. by destruct (field_error g).
Qed.

(** Validation can be repeated, as it is on every input and blur event:
    for a field inside a group, validating again changes nothing; the error
    element is found again and keeps its id, whatever [Math.random]
    returns. *)
Theorem validateField_idempotent rnd rnd' input :
  is_Some (closest_field input) →
  validateField rnd' (validateField rnd input) = validateField rnd input.
Proof.
  intros Hg. rewrite (validateField_by_rules rnd input).
  destruct (spec_first_failing _ _) as [msg|] eqn:Hrule.
  - rewrite validateField_by_rules. cbn [name value setError]. rewrite Hrule.
    by apply setError_setError.
  - rewrite validateField_by_rules. cbn [name value clearError].
    rewrite Hrule. apply clearError_clearError.
Qed.

Lemma validateField_idempotent_witness :
  validateField (codes "x") (validateField [] (text_input "email" "a@b"))
  = validateField [] (text_input "email" "a@b").
Proof.
  apply validateField_idempotent. by eexists.
Defined.

(** Clearing reverses what setting an error shows, and keeps the element:
    after [setError] then [clearError] on a field inside a group, the field
    is marked valid, no message is shown, the group has lost the error
    class, and the error element is still there, hidden and empty, with the
    id the input refers to.  A later error reuses it under the same id.
    Clearing a field that never failed creates no element. *)
Theorem clearError_reverses_setError rnd input msg g :
  closest_field input = Some g →
  let shown := setError rnd input msg in
  let cleared := clearError shown in
  (invalid shown = true ∧ shown_message shown = Some msg)
  ∧ invalid cleared = false
  ∧ shown_message cleared = None
  ∧ (∃ g' err,
       closest_field cleared = Some g'
       ∧ ("field--error" ∉ field_classList g')
       ∧ field_error g' = Some err
       ∧ err_hidden err = true ∧ err_textContent err = ""
       ∧ aria_describedby cleared = Some (err_id err)
       ∧ ∀ rnd' msg',
           aria_describedby (setError rnd' cleared msg')
           = Some (err_id err))
  ∧ (field_error g = None →
     closest_field (clearError input) ≫= field_error = None).
Proof.
  intros Hg. cbn zeta.
  destruct (ensureErrorEl_id rnd input) as (c & id & Hid).
  split; [split; [done|by rewrite shown_message_setError, Hg]|].
  split; [done|]. split; [apply shown_message_clearError|]. split.
  - unfold clearError, setError. rewrite Hg. cbn.
    eexists _, _. split; [reflexivity|]. cbn. split.
    { by intros [? _]%elem_of_classList_remove. }
    split; [reflexivity|]. cbn. split; [done|]. split; [done|].
    split; [done|]. intros rnd' msg'. unfold ensureErrorEl at 1. cbn.
    by rewrite Hid.
  - intros Hnone. unfold clearError. rewrite Hg. cbn. by rewrite Hnone.
Qed.

Lemma clearError_reverses_setError_witness :
  invalid (clearError (setError [] (text_input "email" "x") "Невірний формат email"))
  = false
  ∧ shown_message
      (clearError (setError [] (text_input "email" "x") "Невірний формат email"))
    = None.
Proof.
  destruct (clearError_reverses_setError [] (text_input "email" "x")
              "Невірний формат email" _ eq_refl) as (_ & H1 & H2 & _).
  split; [exact H1 | exact H2].
Defined.

(** ** The focusable set and the trap, continued *)

Lemma List_filter_sublist {A} (f : A → bool) (l : list A) :
  sublist (List.filter f l) l.
Proof.
  induction l as [|x l IH]; cbn; [constructor|].
  destruct (f x); by constructor.
Qed.

(** The focusable set keeps the document order of the descendants and never
    holds a disabled element.  A button, input, select, textarea or element
    with href belongs to it whatever its tabindex, a tabindex of -1
    included, as soon as it is not disabled and not marked aria-hidden; any
    other element belongs to it only through a tabindex other than -1. *)
Theorem getFocusables_selection root :
  sublist (getFocusables root) root
  ∧ (∀ el, el ∈ getFocusables root → hasAttribute "disabled" el = false)
  ∧ (∀ el,
       el ∈ root →
       tagName el ∈ ["button"; "input"; "select"; "textarea"]
       ∨ hasAttribute "href" el = true →
       hasAttribute "disabled" el = false →
       getAttribute "aria-hidden" el = None →
       el ∈ getFocusables root)
  ∧ (∀ el,
       el ∈ getFocusables root →
       tagName el ∉ ["button"; "input"; "select"; "textarea"] →
       hasAttribute "href" el = false →
       ∃ v, getAttribute "tabindex" el = Some v ∧ v ≠ "-1").
Proof.
  split; [|split; [|split]].
  - unfold getFocusables, qsa.
    etrans; apply List_filter_sublist.
  - by intros el (_ & _ & Hd & _)%getFocusables_spec.
  - intros el Hin Hnative Hd Hh. apply getFocusables_spec.
    split; [done|]. split; [|by rewrite Hh].
    unfold selector_focusable. rewrite !orb_true_iff.
    destruct Hnative as [Htag|Hhref]; [|tauto].
    repeat (apply elem_of_cons in Htag as [->|Htag]; [tauto|]).
    by apply elem_of_nil in Htag.
  - intros el (_ & Hsel & _)%getFocusables_spec Htag Hhref.
    unfold selector_focusable in Hsel. rewrite Hhref in Hsel.
    rewrite !orb_true_iff, andb_true_iff, negb_true_iff in Hsel.
    rewrite !String.eqb_eq in Hsel.
    destruct Hsel as [[[[[Ht|?]|Ht]|Ht]|Ht]|[Hti Hne]]; try done;
      try (destruct Htag; rewrite Ht; set_solver).
    unfold hasAttribute in Hti. apply bool_decide_eq_true_1 in Hti as [v Hv].
    exists v. split; [done|]. intros ->.
    unfold getAttribute in Hne. rewrite Hv in Hne.
    by rewrite bool_decide_eq_true_2 in Hne.
Qed.

Lemma getFocusables_selection_witness :
  element 30 "button" [("tabindex", "-1")]
    ∈ getFocusables [element 30 "button" [("tabindex", "-1")]].
Proof.
  destruct (getFocusables_selection [element 30 "button" [("tabindex", "-1")]])
    as (_ & _ & H & _).
  apply H; [by left | left; by left | reflexivity | reflexivity].
Defined.

Lemma trap_for_ends id mel :
  trap_first (trap_for id mel) = None ↔ trap_last (trap_for id mel) = None.
Proof.
  unfold trap_for. cbn.
  destruct (getFocusables (descendants mel)) as [|el fs] eqn:Hfs; [done|].
  split; [done|]. cbn. intros H%fmap_None%last_None. done.
Qed.

(** The trap built for a container confines Tab to its focusable set: from
    the last focusable element Tab calls [focus()] on the first one, from
    the first one Shift+Tab calls it on the last one, each time suppressing
    the default action; the focus moves there when the browser lets that
    element take it, and stays where it is when it does not (a hidden input
    is in the focusable set, and [focus()] does nothing on it).  From anywhere else
    the handler leaves the key press to the browser.  Whatever the focusable
    set and the key, the handler never throws. *)
Theorem focus_trap_cycles page id mel s :
  let t := trap_for id mel in
  (∀ f l,
     head (getFocusables (descendants mel)) = Some f →
     last (getFocusables (descendants mel)) = Some l →
     (activeElement s = Some (el_node l) →
      trap_handler page t "Tab" false s
      = emit DefaultPrevented
          (emit (Focused (el_node f))
             (if takes_focus page (elements s) (el_node f)
              then set_activeElement (Some (el_node f)) s
              else s)))
     ∧ (activeElement s = Some (el_node f) →
        trap_handler page t "Tab" true s
        = emit DefaultPrevented
            (emit (Focused (el_node l))
               (if takes_focus page (elements s) (el_node l)
                then set_activeElement (Some (el_node l)) s
                else s)))
     ∧ (activeElement s ≠ Some (el_node l) →
        trap_handler page t "Tab" false s = s)
     ∧ (activeElement s ≠ Some (el_node f) →
        trap_handler page t "Tab" true s = s))
  ∧ (∀ key shiftKey,
       trace (trap_handler page t key shiftKey s) = trace s
       ∨ ∃ n, trace (trap_handler page t key shiftKey s)
              = DefaultPrevented :: Focused n :: trace s).
Proof.
  cbn zeta. split.
  - intros f l Hf Hl. unfold trap_handler, trap_for, focus_and_prevent, focus.
    cbn [trap_first trap_last String.eqb Ascii.eqb Bool.eqb negb andb].
    rewrite Hf, Hl. cbn [fmap option_fmap option_map same_element].
    split; [|split; [|split]].
    + intros ->. cbn [same_element andb]. by rewrite Nat.eqb_refl.
    + intros ->. cbn [same_element andb]. by rewrite Nat.eqb_refl.
    + intros Hne. destruct (activeElement s) as [a|]; [|done].
      cbn [same_element andb].
      destruct (a =? el_node l) eqn:Heq; [|done].
      apply Nat.eqb_eq in Heq. by subst.
    + intros Hne. destruct (activeElement s) as [a|]; [|done].
      cbn [same_element andb].
      destruct (a =? el_node f) eqn:Heq; [|done].
      apply Nat.eqb_eq in Heq. by subst.
  - intros key shiftKey. pose proof (trap_for_ends id mel) as Hends.
    unfold trap_handler, focus_and_prevent, focus.
    destruct (trap_first (trap_for id mel)) as [f|],
             (trap_last (trap_for id mel)) as [l|].
    2: { discriminate (proj2 Hends eq_refl). }
    2: { discriminate (proj1 Hends eq_refl). }
    + repeat (match goal with
              | |- context [if ?b then _ else _] => destruct b
              end); eauto.
    + left. destruct (negb _); [done|].
      destruct (activeElement s); cbn [same_element];
        by rewrite !andb_false_r.
Qed.

Lemma focus_trap_cycles_witness :
  (let t := trap_for 1 (closed_modal login_descendants) in
   let s := set_activeElement (Some 14) demo_init in
   activeElement (trap_handler demo_page t "Tab" false s) = Some 11)
  ∧ (let t := trap_for 1 (closed_modal token_descendants) in
     let s := set_activeElement (Some 42) token_init in
     activeElement (trap_handler token_page t "Tab" false s) = Some 42
     ∧ trace (trap_handler token_page t "Tab" false s)
       = [DefaultPrevented; Focused 40]).
Proof.
  split.
  - destruct (focus_trap_cycles demo_page 1 (closed_modal login_descendants)
                (set_activeElement (Some 14) demo_init)) as [H _].
    destruct (H (element 11 "button" [("data-close", "")])
                (element 14 "button" [("type", "submit")]) eq_refl eq_refl)
      as (Hfwd & _).
    cbn zeta. rewrite (Hfwd eq_refl). reflexivity.
  - destruct (focus_trap_cycles token_page 1 (closed_modal token_descendants)
                (set_activeElement (Some 42) token_init)) as [H _].
    destruct (H (element 40 "input" [("type", "hidden"); ("name", "token")])
                (element 42 "button" [("type", "submit")]) eq_refl eq_refl)
      as (Hfwd & _).
    cbn zeta. rewrite (Hfwd eq_refl). split; reflexivity.
Defined.

(** ** Key presses and close requests *)

Lemma traps_ignore_key page key shiftKey modal s ts :
  String.eqb key "Tab" = false →
  foldl (run_trap page key shiftKey modal) s ts = s.
Proof.
  intros Hkey. apply foldl_fixed. intros t _. unfold run_trap.
  destruct (bool_decide _); [|done]. by apply trap_handler_other_key.
Qed.

(** The keyboard drives the dialogs through two keys only: a key press
    other than Tab and Escape changes nothing, inside or outside a dialog,
    and Escape does exactly what the close control does, whatever traps are
    installed.  A mousedown that reaches a dialog from its content is
    ignored; only one on the backdrop itself closes. *)
Theorem close_requests_are_uniform page s :
  (∀ key shiftKey within,
     key ≠ "Tab" → key ≠ "Escape" →
     step page s (KeyDown key shiftKey within) = s)
  ∧ (∀ shiftKey within,
       step page s (KeyDown "Escape" shiftKey within) = closeModal s)
  ∧ (∀ modal, step page s (MouseDown modal modal) = closeModal s)
  ∧ (∀ modal target,
       target ≠ modal → step page s (MouseDown modal target) = s)
  ∧ step page s ClickClose = closeModal s.
Proof.
  split; [|split; [|split; [|split]]].
  - intros key sh within Htab Hesc. cbn [step]. unfold dispatch_keydown.
    apply String.eqb_neq in Htab, Hesc. rewrite Hesc.
    destruct within as [modal|]; [|done]. by apply traps_ignore_key.
  - intros sh within. cbn [step]. unfold dispatch_keydown.
    cbn [String.eqb Ascii.eqb Bool.eqb].
    destruct within as [modal|]; [|done]. by rewrite traps_ignore_key.
  - intros modal. cbn [step]. by rewrite Nat.eqb_refl.
  - intros modal target Hne. cbn [step]. apply Nat.eqb_neq in Hne.
    by rewrite Hne.
  - done.
Qed.

Lemma close_requests_are_uniform_witness :
  step demo_page demo_init (KeyDown "Enter" false (Some 1)) = demo_init
  ∧ step demo_page demo_init (MouseDown 1 10) = demo_init.
Proof.
  destruct (close_requests_are_uniform demo_page demo_init)
    as (Hkey & _ & _ & Hdown & _).
  split.
  - apply Hkey; discriminate.
  - apply Hdown. discriminate.
Defined.

(** ** A complete open, and a complete cycle *)

Lemma open_completes page s key m mel :
  modals page key = Some m →
  activeModal s = None →
  elements s !! m = Some mel →
  animationend mel = [] →
  let t := trap_for (S (next_id s)) mel in
  let els :=
    <[m :=
       {| hidden := false;
          classes :=
            classList_remove "is-opening"
              (classList_add "is-opening"
                 (classList_remove "is-closing" (classes mel)));
          animationend := [];
          keydown := keydown mel ++ [t]; _trap := Some t;
          descendants := descendants mel |}]> (elements s) in
  run page s [ClickOpen key; AnimationEnd m m] =
  {| activeModal := Some m; overflow := "hidden";
     header_aria_hidden :=
       if has_header page then Some "true" else header_aria_hidden s;
     activeElement :=
       match trap_first t with
       | Some n =>
           if takes_focus page els n then Some n else activeElement s
       | None => activeElement s
       end;
     elements := els;
     next_id := S (S (next_id s));
     trace :=
       match trap_first t with Some n => [Focused n] | None => [] end
       ++ TrapInstalled m t
          :: (on_header page HeaderHidden
              ++ [ScrollLocked; Resolved m Opening;
                  AnimationStarted m Opening; ActiveSet m]
              ++ trace s) |}.
Proof.
  intros Hkey Hnone Hm Hls. cbn zeta. unfold run. cbn [foldl step].
  unfold openModal. rewrite Hkey, Hnone.
  erewrite animateOpen_Some by (cbn [elements emit set_activeModal]; exact Hm).
  rewrite Hls. cbn [app emit set_activeModal activeModal overflow
    header_aria_hidden activeElement elements next_id trace].
  unfold dispatch_animationend.
  erewrite listeners_Some by (cbn [elements]; apply lookup_insert_eq).
  cbn [animationend foldl].
  erewrite run_onEnd_registered;
    [|cbn [elements]; apply lookup_insert_eq|cbn; left].
  erewrite onEnd_Some by (cbn [elements]; apply lookup_insert_eq).
  cbn [resume hidden classes animationend keydown _trap descendants
    activeModal overflow header_aria_hidden activeElement elements next_id
    trace marker l_kind l_id].
  rewrite insert_insert_eq.
  rewrite filter_cons_False by (intros H; by apply H). rewrite filter_nil.
  erewrite openModal_resume_Some by (cbn [elements]; apply lookup_insert_eq).
  cbn [hidden classes animationend keydown _trap descendants activeModal
    overflow header_aria_hidden activeElement elements next_id trace].
  rewrite insert_insert_eq.
  change (trap_for (S (next_id s)) ?x) with (trap_for (S (next_id s)) mel).
  reflexivity.
Qed.

Lemma close_completes page s m mel :
  activeModal s = Some m →
  elements s !! m = Some mel →
  animationend mel = [] →
  run page s [ClickClose; AnimationEnd m m] =
  {| activeModal := None; overflow := "";
     header_aria_hidden :=
       if has_header page then None else header_aria_hidden s;
     activeElement := activeElement s;
     elements :=
       <[m :=
          {| hidden := true;
             classes :=
               classList_remove "is-closing"
                 (classList_add "is-closing"
                    (classList_remove "is-opening" (classes mel)));
             animationend := [];
             keydown :=
               match _trap mel with
               | Some t => filter (λ t', trap_id t' ≠ trap_id t) (keydown mel)
               | None => keydown mel
               end;
             _trap := _trap mel;
             descendants := descendants mel |}]> (elements s);
     next_id := S (next_id s);
     trace :=
       on_header page HeaderShown
       ++ [ScrollUnlocked; ActiveCleared; Resolved m Closing;
           AnimationStarted m Closing]
       ++ match _trap mel with Some t => [TrapRemoved m t] | None => [] end
       ++ trace s |}.
Proof.
  intros Ha Hm Hls. unfold run. cbn [foldl step].
  rewrite (closeModal_Some s m mel Ha Hm), Hls. cbn [app].
  unfold dispatch_animationend.
  erewrite listeners_Some by (cbn [elements]; apply lookup_insert_eq).
  cbn [animationend foldl].
  erewrite run_onEnd_registered;
    [|cbn [elements]; apply lookup_insert_eq|cbn; left].
  erewrite onEnd_Some by (cbn [elements]; apply lookup_insert_eq).
  cbn [resume hidden classes animationend keydown _trap descendants
    activeModal overflow header_aria_hidden activeElement elements next_id
    trace marker l_kind l_id].
  rewrite insert_insert_eq.
  rewrite filter_cons_False by (intros H; by apply H). rewrite filter_nil.
  unfold closeModal_resume, on_header. by destruct (has_header page).
Qed.

Lemma class_list_settled tok a b cl :
  tok ∈ classList_remove a (classList_add a (classList_remove b cl))
  ↔ tok ∈ cl ∧ tok ≠ a ∧ tok ≠ b.
Proof.
  rewrite elem_of_classList_remove, elem_of_classList_add,
    elem_of_classList_remove. tauto.
Qed.

(** With no dialog active, an open request for a known key followed by the
    end of the transition opens that dialog and no other: the slot names it,
    it is shown without transition marker and nothing is pending on it, the
    page scroll is locked and the header (when there is one) hidden from
    assistive technology, one more trap is installed on it, built from its
    focusable set, the first focusable element has the focus when there is
    one and the browser lets it take the focus (otherwise the focus stays
    where it was: [focus()] does nothing on a hidden input), and every other
    container is untouched. *)
Theorem open_request_completes page s key m mel :
  modals page key = Some m →
  activeModal s = None →
  elements s !! m = Some mel →
  animationend mel = [] →
  let opened := run page s [ClickOpen key; AnimationEnd m m] in
  let t := trap_for (S (next_id s)) mel in
  activeModal opened = Some m
  ∧ is_hidden m opened = Some false
  ∧ (∀ tok, tok ∈ class_list m opened
            ↔ tok ∈ classes mel ∧ tok ≠ "is-opening" ∧ tok ≠ "is-closing")
  ∧ listeners m opened = []
  ∧ overflow opened = "hidden"
  ∧ (has_header page = true → header_aria_hidden opened = Some "true")
  ∧ traps m opened = keydown mel ++ [t]
  ∧ activeElement opened
    = match head (getFocusables (descendants mel)) with
      | Some el =>
          if takes_focus page (elements opened) (el_node el)
          then Some (el_node el)
          else activeElement s
      | None => activeElement s
      end
  ∧ (∀ m', m' ≠ m → elements opened !! m' = elements s !! m').
Proof.
  intros Hkey Hnone Hm Hls. cbn zeta.
  rewrite (open_completes page s key m mel Hkey Hnone Hm Hls).
  unfold is_hidden, class_list, listeners, traps.
  cbn [activeModal overflow header_aria_hidden activeElement elements].
  rewrite lookup_insert_eq.
  cbn [from_option fmap option_fmap option_map hidden classes animationend
       keydown].
  split; [done|]. split; [done|].
  split; [intros tok; apply class_list_settled|].
  split; [done|]. split; [done|]. split; [by intros ->|]. split; [done|].
  split.
  - unfold trap_for. cbn [trap_first].
    by destruct (head (getFocusables (descendants mel))).
  - intros m' Hne. by rewrite lookup_insert_ne.
Qed.

Lemma open_request_completes_witness :
  (let opened :=
     run demo_page demo_init [ClickOpen "login"; AnimationEnd 1 1] in
   activeModal opened = Some 1
   ∧ overflow opened = "hidden"
   ∧ activeElement opened = Some 11
   ∧ elements opened !! 2 = elements demo_init !! 2)
  ∧ (let opened :=
       run token_page token_init [ClickOpen "login"; AnimationEnd 1 1] in
     activeModal opened = Some 1
     ∧ activeElement opened = Some 5).
Proof.
  split.
  - destruct (open_request_completes demo_page demo_init "login" 1
                (closed_modal login_descendants)
                eq_refl eq_refl eq_refl eq_refl)
      as (Ha & _ & _ & _ & Ho & _ & _ & Hf & Hothers).
    split; [exact Ha|]. split; [exact Ho|]. split; [exact Hf|].
    apply Hothers. discriminate.
  - destruct (open_request_completes token_page token_init "login" 1
                (closed_modal token_descendants)
                eq_refl eq_refl eq_refl eq_refl)
      as (Ha & _ & _ & _ & _ & _ & _ & Hf & _).
    split; [exact Ha | exact Hf].
Defined.

(** A dialog that is opened, and closed once it is open, leaves the page as
    it found it: the slot is empty, the container hidden and without
    transition marker, nothing pending, the scroll unlocked and the header
    marker removed, every other container untouched, and the key handlers
    registered on the container are those that were there before: the trap
    of this cycle is gone. *)
Theorem open_close_cycle_restores page s key m mel :
  modals page key = Some m →
  activeModal s = None →
  elements s !! m = Some mel →
  animationend mel = [] →
  (∀ t, t ∈ keydown mel → trap_id t < next_id s) →
  let closed :=
    run page s [ClickOpen key; AnimationEnd m m;
                ClickClose; AnimationEnd m m] in
  activeModal closed = None
  ∧ is_hidden m closed = Some true
  ∧ (∀ tok, tok ∈ class_list m closed
            ↔ tok ∈ classes mel ∧ tok ≠ "is-opening" ∧ tok ≠ "is-closing")
  ∧ listeners m closed = []
  ∧ overflow closed = ""
  ∧ (has_header page = true → header_aria_hidden closed = None)
  ∧ traps m closed = keydown mel
  ∧ (∀ m', m' ≠ m → elements closed !! m' = elements s !! m').
Proof.
  intros Hkey Hnone Hm Hls Hids. cbn zeta.
  change (run page s [ClickOpen key; AnimationEnd m m;
                      ClickClose; AnimationEnd m m])
    with (run page (run page s [ClickOpen key; AnimationEnd m m])
            [ClickClose; AnimationEnd m m]).
  rewrite (open_completes page s key m mel Hkey Hnone Hm Hls).
  erewrite close_completes;
    [|reflexivity|cbn [elements]; apply lookup_insert_eq|reflexivity].
  unfold is_hidden, class_list, listeners, traps.
  cbn [activeModal overflow header_aria_hidden activeElement elements
       hidden classes animationend keydown _trap descendants].
  rewrite insert_insert_eq, lookup_insert_eq.
  cbn [from_option fmap option_fmap option_map hidden classes animationend
       keydown].
  split; [done|]. split; [done|]. split.
  { intros tok. rewrite !class_list_settled. tauto. }
  split; [done|]. split; [done|]. split; [by intros ->|]. split.
  - rewrite filter_app, filter_cons_False by (intros H; by apply H).
    rewrite filter_nil, app_nil_r. apply filter_all.
    intros t Ht. specialize (Hids t Ht). cbn. lia.
  - intros m' Hne. by rewrite lookup_insert_ne.
Qed.

Lemma open_close_cycle_restores_witness :
  let closed :=
    run demo_page demo_init
      [ClickOpen "login"; AnimationEnd 1 1; ClickClose; AnimationEnd 1 1] in
  activeModal closed = None ∧ overflow closed = "" ∧ traps 1 closed = [].
Proof.
  assert (∀ t, t ∈ keydown (closed_modal login_descendants) →
               trap_id t < next_id demo_init) as Hids.
  { intros t Ht. by apply elem_of_nil in Ht. }
  destruct (open_close_cycle_restores demo_page demo_init "login" 1
              (closed_modal login_descendants)
              eq_refl eq_refl eq_refl eq_refl Hids)
    as (Ha & _ & _ & _ & Ho & _ & Ht & _).
  split; [exact Ha|]. split; [exact Ho | exact Ht].
Defined.

(** ** What holds in every state the page can reach *)

Lemma next_id_run_onEnd page m target s l :
  next_id s ≤ next_id (run_onEnd page m target s l).
Proof.
  unfold run_onEnd. destruct (bool_decide _); [|done].
  destruct (target =? m); [|done].
  by destruct (chrome_resume_onEnd page m l s) as [? _].
Qed.

Lemma next_id_flush page m target ls s :
  next_id s ≤ next_id (foldl (run_onEnd page m target) s ls).
Proof.
  revert s. induction ls as [|l ls IH]; intros s; cbn [foldl]; [done|].
  etrans; [apply (next_id_run_onEnd page m target s l) | apply IH].
Qed.

Section FlushChrome.

Variables (page : Page) (m : Node) (s0 : State).
Hypothesis Hactive : listeners m s0 ≠ [] → activeModal s0 = Some m.
Hypothesis Hhead : head_only (listeners m s0).
Hypothesis Hreleased : chrome_released s0.
Hypothesis Hheader : has_header page = false → header_aria_hidden s0 = None.

Lemma chrome_flush_step s l rest :
  (has_header page = false → header_aria_hidden s = None) →
  (s = s0 ∧ l :: rest = listeners m s0)
  ∨ (Forall (λ l, l_kind l = Closing) (l :: rest) ∧ chrome_released s) →
  let s' := run_onEnd page m m s l in
  (has_header page = false → header_aria_hidden s' = None)
  ∧ Forall (λ l, l_kind l = Closing) rest ∧ chrome_released s'.
Proof.
  intros Hh Hcase. cbn zeta.
  assert (Forall (λ l, l_kind l = Closing) rest) as Hrest.
  { destruct Hcase as [[_ Heq]|[Hall _]].
    - unfold head_only in Hhead. by rewrite <- Heq in Hhead.
    - by apply Forall_cons in Hall as [_ ?]. }
  assert (chrome_released s) as Hrel
    by (destruct Hcase as [[-> _]|[_ ?]]; done).
  unfold run_onEnd. destruct (bool_decide _); [|done].
  rewrite Nat.eqb_refl.
  destruct (chrome_resume_onEnd page m l s) as [_ Hchrome].
  destruct (l_kind l) eqn:Hk.
  - destruct Hchrome as (Ha & Hhid & _).
    destruct Hcase as [[-> Heq]|[Hall _]].
    2: { apply Forall_cons in Hall as [Hl _]. congruence. }
    split; [|split; [done|]].
    + rewrite Hhid. intros Hno. rewrite Hno. by apply Hheader.
    + intros Hnone. rewrite Ha, Hactive in Hnone; [done|].
      by rewrite <- Heq.
  - destruct Hchrome as (Ha & Ho & Hhid).
    split; [|split; [done|]].
    + rewrite Hhid. intros Hno. rewrite Hno. by apply Hh.
    + intros _. split; [done|]. rewrite Hhid.
      destruct (has_header page) eqn:Hp; [done|]. by apply Hh.
Qed.

Lemma chrome_flush_loop ls s :
  (has_header page = false → header_aria_hidden s = None) →
  (s = s0 ∧ ls = listeners m s0)
  ∨ (Forall (λ l, l_kind l = Closing) ls ∧ chrome_released s) →
  let s' := foldl (run_onEnd page m m) s ls in
  (has_header page = false → header_aria_hidden s' = None)
  ∧ chrome_released s'.
Proof.
  revert s. induction ls as [|l ls IH]; intros s Hh Hcase; cbn [foldl].
  - split; [done|]. by destruct Hcase as [[-> _]|[_ ?]].
  - destruct (chrome_flush_step s l ls Hh Hcase) as (Hh' & Hall & Hrel).
    apply IH; [done|]. by right.
Qed.

Lemma chrome_flush :
  let s' := dispatch_animationend page m m s0 in
  (has_header page = false → header_aria_hidden s' = None)
  ∧ chrome_released s'.
Proof. apply chrome_flush_loop; [done|]. by left. Qed.

End FlushChrome.

Lemma frame_trap_handler page t key shiftKey s :
  elements (trap_handler page t key shiftKey s) = elements s
  ∧ activeModal (trap_handler page t key shiftKey s) = activeModal s
  ∧ overflow (trap_handler page t key shiftKey s) = overflow s
  ∧ header_aria_hidden (trap_handler page t key shiftKey s) = header_aria_hidden s
  ∧ next_id (trap_handler page t key shiftKey s) = next_id s.
Proof.
  unfold trap_handler, focus_and_prevent, focus.
  destruct (trap_last t), (trap_first t);
    repeat (match goal with |- context [if ?b then _ else _] => destruct b end);
    done.
Qed.

Lemma frame_traps_run page key shiftKey m s ts :
  let s' := foldl (run_trap page key shiftKey m) s ts in
  elements s' = elements s
  ∧ activeModal s' = activeModal s
  ∧ overflow s' = overflow s
  ∧ header_aria_hidden s' = header_aria_hidden s
  ∧ next_id s' = next_id s.
Proof.
  cbn zeta. revert s. induction ts as [|t ts IH]; intros s; cbn [foldl]; [done|].
  destruct (IH (run_trap page key shiftKey m s t)) as (-> & -> & -> & -> & ->).
  unfold run_trap. destruct (bool_decide _); [|done].
  apply frame_trap_handler.
Qed.

Lemma tidy_ext page s s' :
  elements s' = elements s → activeModal s' = activeModal s →
  overflow s' = overflow s → header_aria_hidden s' = header_aria_hidden s →
  next_id s ≤ next_id s' →
  tidy page s → tidy page s'.
Proof.
  intros He Ha Ho Hh Hn (Hlists & Hrel & Hhead). unfold tidy, chrome_released.
  rewrite He, Ha, Ho, Hh. split; [|done].
  intros m mel Hm. destruct (Hlists m mel Hm) as (? & ? & Hb).
  split; [done|]. split; [done|]. intros l Hl. specialize (Hb l Hl). lia.
Qed.

Lemma pending_append ls n k :
  head_only ls → NoDup (l_id <$> ls) → (∀ l, l ∈ ls → l_id l < n) →
  (k = Opening → ls = []) →
  let ls' := ls ++ [{| l_id := n; l_kind := k |}] in
  head_only ls' ∧ NoDup (l_id <$> ls') ∧ ∀ l, l ∈ ls' → l_id l < S n.
Proof.
  intros Hhead Hnd Hb Hk. cbn zeta. split; [|split].
  - destruct ls as [|l ls]; [cbn; constructor|].
    cbn. apply Forall_app. split; [done|].
    apply Forall_singleton. cbn. destruct k; [|done]. by specialize (Hk eq_refl).
  - rewrite fmap_app. apply NoDup_app. split; [done|]. split.
    + intros i (l & -> & Hl)%list_elem_of_fmap Hi.
      apply list_elem_of_singleton in Hi. cbn in Hi. specialize (Hb l Hl). lia.
    + cbn. apply NoDup_singleton.
  - intros l [Hl|Hl]%elem_of_app.
    + specialize (Hb l Hl). lia.
    + apply list_elem_of_singleton in Hl. subst. cbn. lia.
Qed.

Lemma tidy_openModal page key s :
  consistent s → tidy page s → tidy page (openModal page key s).
Proof.
  intros Hc (Hlists & Hrel & Hhead). unfold openModal.
  destruct (modals page key) as [modal|]; [|done].
  destruct (activeModal s) eqn:Hnone; [done|].
  destruct (elements s !! modal) as [mel|] eqn:Hmodal.
  - erewrite animateOpen_Some by exact Hmodal.
    split; [|split; [done|exact Hhead]].
    intros m mel'. cbn [elements next_id emit set_activeModal].
    destruct (decide (m = modal)) as [->|Hne].
    + rewrite lookup_insert_eq. intros [= <-]. cbn [animationend].
      destruct (Hlists modal mel Hmodal) as (H1 & H2 & H3).
      apply pending_append; [done..|]. intros _.
      destruct (animationend mel) eqn:Hls; [done|].
      destruct (consistent_idle s modal mel Hc Hnone Hmodal).
      repeat right. by rewrite Hls.
    + rewrite lookup_insert_ne by done. intros Hm.
      destruct (Hlists m mel' Hm) as (H1 & H2 & H3).
      split; [done|]. split; [done|]. intros l Hl. specialize (H3 l Hl). lia.
  - rewrite animateOpen_None by exact Hmodal.
    split; [|split; [done|exact Hhead]].
    intros m mel' Hm. cbn in Hm. destruct (Hlists m mel' Hm) as (H1 & H2 & H3).
    split; [done|]. split; [done|]. intros l Hl. specialize (H3 l Hl).
    cbn. lia.
Qed.

Lemma tidy_closeModal page s :
  tidy page s → tidy page (closeModal s).
Proof.
  intros (Hlists & Hrel & Hhead).
  destruct (activeModal s) as [m0|] eqn:Ha.
  2: { unfold closeModal. by rewrite Ha. }
  destruct (elements s !! m0) as [mel|] eqn:Hm0.
  - rewrite (closeModal_Some s m0 mel Ha Hm0).
    split; [|split; [done|exact Hhead]].
    intros m mel'. cbn [elements next_id].
    destruct (decide (m = m0)) as [->|Hne].
    + rewrite lookup_insert_eq. intros [= <-]. cbn [animationend].
      destruct (Hlists m0 mel Hm0) as (H1 & H2 & H3).
      by apply pending_append.
    + rewrite lookup_insert_ne by done. intros Hm.
      destruct (Hlists m mel' Hm) as (H1 & H2 & H3).
      split; [done|]. split; [done|]. intros l Hl. specialize (H3 l Hl). lia.
  - rewrite (closeModal_None s m0 Ha Hm0).
    split; [|split; [exact Hrel|exact Hhead]].
    intros m mel' Hm. cbn in Hm. destruct (Hlists m mel' Hm) as (H1 & H2 & H3).
    split; [done|]. split; [done|]. intros l Hl. specialize (H3 l Hl).
    cbn. lia.
Qed.

Lemma tidy_dispatch_animationend page m s :
  consistent s → tidy page s → tidy page (dispatch_animationend page m m s).
Proof.
  intros Hc (Hlists & Hrel & Hhead).
  assert (listeners m s ≠ [] → activeModal s = Some m) as Hactive.
  { unfold listeners. destruct (elements s !! m) as [mel|] eqn:Hm; [|done].
    intros Hne. destruct (Hc m mel Hm) as [Hslot _]. apply Hslot.
    by repeat right. }
  assert (head_only (listeners m s)) as Hho.
  { unfold listeners. destruct (elements s !! m) as [mel|] eqn:Hm; [|done].
    by destruct (Hlists m mel Hm). }
  destruct (chrome_flush page m s Hactive Hho Hrel Hhead) as [Hhead' Hrel'].
  split; [|done].
  intros m' mel' Hm'. destruct (decide (m' = m)) as [->|Hne].
  - pose proof (dispatch_animationend_settles page m s) as Hnil.
    rewrite (listeners_Some _ _ _ Hm') in Hnil. rewrite Hnil.
    split; [done|]. split; [constructor|]. intros l Hl.
    by apply elem_of_nil in Hl.
  - rewrite elements_dispatch_animationend_ne in Hm' by done.
    destruct (Hlists m' mel' Hm') as (H1 & H2 & H3).
    split; [done|]. split; [done|]. intros l Hl. specialize (H3 l Hl).
    pose proof (next_id_flush page m m (listeners m s) s) as Hle.
    unfold dispatch_animationend. lia.
Qed.

Lemma tidy_step page s e :
  consistent s → tidy page s → tidy page (step page s e).
Proof.
  intros Hc Ht. destruct e as [key| |m target|key sh within|m target];
    cbn [step].
  - by apply tidy_openModal.
  - by apply tidy_closeModal.
  - destruct (target =? m); [|done]. by apply tidy_closeModal.
  - unfold dispatch_keydown.
    assert (tidy page
              match within with
              | Some modal => foldl (run_trap page key sh modal) s (traps modal s)
              | None => s
              end) as Ht'.
    { destruct within as [modal|]; [|done].
      destruct (frame_traps_run page key sh modal s (traps modal s))
        as (He & Ha & Ho & Hh & Hn).
      apply (tidy_ext page s); auto with lia. }
    destruct (String.eqb key "Escape"); [|done].
    by apply tidy_closeModal.
  - destruct (decide (target = m)) as [->|Hne].
    + by apply tidy_dispatch_animationend.
    + by rewrite dispatch_animationend_bubbled.
Qed.

Lemma tidy_run page s es :
  consistent s → tidy page s →
  consistent (run page s es) ∧ tidy page (run page s es).
Proof.
  revert s. unfold run.
  induction es as [|e es IH]; intros s Hc Ht; cbn [foldl]; [done|].
  apply IH; [by apply consistent_step | by apply tidy_step].
Qed.

Lemma at_rest_tidy page s :
  at_rest s → overflow s = "" → header_aria_hidden s = None →
  tidy page s.
Proof.
  intros [Hnone Hidle] Ho Hh. split; [|done].
  intros m mel Hm.
  assert (animationend mel = []) as ->.
  { destruct (animationend mel) eqn:Hls; [done|].
    destruct (Hidle m mel Hm). repeat right. by rewrite Hls. }
  split; [done|]. split; [constructor|]. intros l Hl.
  by apply elem_of_nil in Hl.
Qed.

(** The page is never left locked: starting from a page at rest with the
    scroll unlocked and the header unmarked, whatever sequence of requests,
    key presses and transition ends follows (a close during an opening
    included), whenever no dialog is active the page scroll is unlocked and
    the header carries no aria-hidden marker. *)
Theorem chrome_released_when_inactive page s es :
  at_rest s → overflow s = "" → header_aria_hidden s = None →
  activeModal (run page s es) = None →
  overflow (run page s es) = ""
  ∧ header_aria_hidden (run page s es) = None.
Proof.
  intros Hrest Ho Hh Hnone.
  destruct (tidy_run page s es (at_rest_consistent s Hrest)
              (at_rest_tidy page s Hrest Ho Hh)) as [_ (_ & Hrel & _)].
  by apply Hrel.
Qed.

Lemma chrome_released_when_inactive_witness :
  overflow
    (run demo_page demo_init
       [ClickOpen "login"; KeyDown "Escape" false None; AnimationEnd 1 1])
  = "".
Proof.
  refine (proj1 (chrome_released_when_inactive demo_page demo_init
                   [ClickOpen "login"; KeyDown "Escape" false None;
                    AnimationEnd 1 1]
                   demo_init_at_rest eq_refl eq_refl _)).
  vm_compute. reflexivity.
Defined.

Lemma trace_resume_quiet page m k s :
  ∃ new, trace (resume page m k s) = new ++ trace s
         ∧ List.filter is_resolution new = [].
Proof.
  destruct k; cbn [resume].
  - unfold openModal_resume, focus.
    destruct (has_header page), (el_node <$> head _) as [n|];
      try destruct (takes_focus page _ n); cbn.
    all: first [ by eexists [_; _; _; _] | by eexists [_; _; _]
               | by eexists [_; _] ].
  - unfold closeModal_resume. destruct (has_header page); cbn.
    + by eexists [_; _; _].
    + by eexists [_; _].
Qed.

(** The effects that the event adds hold one resolution for each closure
    that was registered, in the order of registration. *)
Lemma flush_fresh page m ls s :
  NoDup (l_id <$> ls) →
  (∀ x, x ∈ ls → l_id x ∈ l_id <$> listeners m s) →
  ∃ new, trace (foldl (run_onEnd page m m) s ls) = new ++ trace s
         ∧ List.filter is_resolution new
           = rev ((λ l, Resolved m (l_kind l)) <$> ls).
Proof.
  revert s. induction ls as [|x ls IH]; intros s Hnd Hreg; cbn [foldl].
  { by exists []. }
  rewrite fmap_cons in Hnd. apply NoDup_cons in Hnd as [Hx Hnd].
  destruct (IH (run_onEnd page m m s x) Hnd) as (new & Htr & Hres).
  { intros y Hy. rewrite listeners_run_onEnd.
    assert (l_id y ∈ l_id <$> listeners m s) as Hy' by (apply Hreg; by right).
    apply list_elem_of_fmap in Hy' as (y' & Heq & Hy').
    rewrite Heq. apply list_elem_of_fmap_2. apply list_elem_of_filter.
    split; [|done]. intros Hid. apply Hx. rewrite <- Hid, <- Heq.
    by apply list_elem_of_fmap_2. }
  rewrite Htr. unfold run_onEnd.
  rewrite bool_decide_eq_true_2 by (apply Hreg; left).
  rewrite Nat.eqb_refl.
  destruct (trace_resume_quiet page m (l_kind x) (onEnd m x s))
    as (new1 & -> & Hquiet).
  rewrite trace_onEnd.
  exists (new ++ new1 ++ [Resolved m (l_kind x)]). split.
  - by rewrite <- !app_assoc.
  - rewrite !List.filter_app, Hres, Hquiet. reflexivity.
Qed.

(** No completion is ever lost: in every state reached from a page at
    rest, the closures pending on a container are distinct, at most the
    oldest of them belongs to an open, and the next [animationend] on the
    container resolves the promise of each of them: it leaves no closure
    registered on the container, and the effects it adds to the log hold
    exactly one resolution for each closure that was pending, of the kind
    of that closure, in the order in which they were registered. *)
Theorem every_pending_completion_is_resolved page s es m :
  at_rest s → overflow s = "" → header_aria_hidden s = None →
  let s' := run page s es in
  NoDup (l_id <$> listeners m s')
  ∧ head_only (listeners m s')
  ∧ (∀ l, l ∈ listeners m s' →
          Resolved m (l_kind l) ∈ trace (step page s' (AnimationEnd m m)))
  ∧ listeners m (step page s' (AnimationEnd m m)) = []
  ∧ ∃ new,
      trace (step page s' (AnimationEnd m m)) = new ++ trace s'
      ∧ rev (List.filter is_resolution new)
        = (λ l, Resolved m (l_kind l)) <$> listeners m s'.
Proof.
  intros Hrest Ho Hh. cbn zeta.
  destruct (tidy_run page s es (at_rest_consistent s Hrest)
              (at_rest_tidy page s Hrest Ho Hh)) as [_ (Hlists & _ & _)].
  assert (NoDup (l_id <$> listeners m (run page s es))
          ∧ head_only (listeners m (run page s es))) as [Hnd Hho].
  { unfold listeners.
    destruct (elements (run page s es) !! m) as [mel|] eqn:Hm.
    - by destruct (Hlists m mel Hm) as (? & ? & _).
    - split; [constructor | done]. }
  split; [done|]. split; [done|]. split; [|split].
  - intros l Hl. cbn [step].
    unfold dispatch_animationend. apply flush_resolves; [done| |done].
    intros x Hx. by apply list_elem_of_fmap_2.
  - apply dispatch_animationend_settles.
  - cbn [step]. unfold dispatch_animationend.
    destruct (flush_fresh page m (listeners m (run page s es))
                (run page s es) Hnd) as (new & Htr & Hres).
    { intros x Hx. by apply list_elem_of_fmap_2. }
    exists new. split; [done|]. by rewrite Hres, rev_involutive.
Qed.

Lemma every_pending_completion_is_resolved_witness :
  let s' := run demo_page demo_init [ClickOpen "login"; ClickClose] in
  Resolved 1 Closing ∈ trace (step demo_page s' (AnimationEnd 1 1))
  ∧ listeners 1 (step demo_page s' (AnimationEnd 1 1)) = []
  ∧ ∃ new,
      trace (step demo_page s' (AnimationEnd 1 1)) = new ++ trace s'
      ∧ rev (List.filter is_resolution new)
        = [Resolved 1 Opening; Resolved 1 Closing].
Proof.
  destruct (every_pending_completion_is_resolved demo_page demo_init
              [ClickOpen "login"; ClickClose] 1
              demo_init_at_rest eq_refl eq_refl) as (_ & _ & H & Hnone & Hnew).
  split; [|split; [exact Hnone | exact Hnew]].
  apply (H {| l_id := 1; l_kind := Closing |}).
  vm_compute. right. left.
Defined.

Lemma flush_stays_closed page m ls s :
  Forall (λ l, l_kind l = Closing) ls →
  activeModal s = None →
  activeModal (foldl (run_onEnd page m m) s ls) = None.
Proof.
  intros Hall. revert s.
  induction Hall as [|l ls Hl _ IH]; intros s Hnone; cbn [foldl]; [done|].
  apply IH. unfold run_onEnd. destruct (bool_decide _); [|done].
  rewrite Nat.eqb_refl.
  destruct (chrome_resume_onEnd page m l s) as [_ Hchrome].
  rewrite Hl in Hchrome |- *. by destruct Hchrome.
Qed.

Lemma flush_with_close_empties_slot page m s x c rest :
  listeners m s = x :: c :: rest →
  head_only (listeners m s) →
  NoDup (l_id <$> listeners m s) →
  activeModal (dispatch_animationend page m m s) = None.
Proof.
  intros Hls Hhead Hnd. unfold dispatch_animationend. rewrite Hls in *.
  cbn [foldl]. cbn in Hhead. apply Forall_cons in Hhead as [Hc Hrest].
  apply flush_stays_closed; [done|].
  unfold run_onEnd at 1. rewrite Nat.eqb_refl.
  rewrite bool_decide_eq_true_2.
  - destruct (chrome_resume_onEnd page m c (run_onEnd page m m s x))
      as [_ Hchrome].
    rewrite Hc in Hchrome |- *. by destruct Hchrome.
  - rewrite listeners_run_onEnd, Hls. apply list_elem_of_fmap_2.
    apply list_elem_of_filter. split; [|right; by left].
    rewrite !fmap_cons in Hnd. apply NoDup_cons in Hnd as [Hx _].
    intros Heq. apply Hx. rewrite Heq. by left.
Qed.

Lemma guarded_openModal page key s :
  guarded page s → guarded page (openModal page key s).
Proof.
  intros Hg. unfold openModal.
  destruct (modals page key) as [modal|]; [|done].
  destruct (activeModal s) eqn:Hnone; [done|].
  destruct (elements s !! modal) as [mel|] eqn:Hmodal.
  - erewrite animateOpen_Some by exact Hmodal.
    intros m mel'. cbn [activeModal elements emit set_activeModal].
    intros [= <-]. rewrite lookup_insert_eq. intros [= <-]. cbn.
    by intros ?%app_nil_r_inv.
  - rewrite animateOpen_None by exact Hmodal.
    intros m mel'. cbn. intros [= <-]. by rewrite Hmodal.
Qed.

Lemma guarded_closeModal page s :
  guarded page s → guarded page (closeModal s).
Proof.
  intros Hg. destruct (activeModal s) as [m0|] eqn:Ha.
  2: { unfold closeModal. by rewrite Ha. }
  destruct (elements s !! m0) as [mel|] eqn:Hm0.
  - rewrite (closeModal_Some s m0 mel Ha Hm0).
    intros m mel'. cbn [activeModal elements].
    intros [= <-]. rewrite lookup_insert_eq. intros [= <-]. cbn.
    by intros ?%app_nil_r_inv.
  - rewrite (closeModal_None s m0 Ha Hm0).
    intros m mel'. cbn. rewrite Ha. intros [= <-]. by rewrite Hm0.
Qed.

Lemma guarded_dispatch_animationend page m s :
  consistent s → tidy page s → guarded page s →
  guarded page (dispatch_animationend page m m s).
Proof.
  intros Hc (Hlists & _ & _) Hg.
  destruct (elements s !! m) as [mel0|] eqn:Hm.
  2: { unfold dispatch_animationend, listeners. by rewrite Hm. }
  destruct (Hlists m mel0 Hm) as (Hhead & Hnd & _).
  destruct (animationend mel0) as [|x [|c rest]] eqn:Hls.
  - unfold dispatch_animationend. by rewrite (listeners_Some _ _ _ Hm), Hls.
  - unfold dispatch_animationend. rewrite (listeners_Some _ _ _ Hm), Hls.
    cbn [foldl].
    rewrite (run_onEnd_registered page m s x mel0 Hm)
      by (rewrite Hls; cbn; left).
    destruct (l_kind x) eqn:Hk.
    + rewrite (onEnd_Some _ _ _ _ Hm), Hls, Hk. cbn [resume].
      erewrite openModal_resume_Some
        by (cbn [elements]; apply lookup_insert_eq).
      cbn [hidden classes animationend keydown _trap descendants activeModal
        overflow header_aria_hidden activeElement elements next_id trace].
      rewrite insert_insert_eq.
      assert (activeModal s = Some m) as Ha.
      { destruct (Hc m mel0 Hm) as [Hslot _]. apply Hslot.
        repeat right. by rewrite Hls. }
      intros m' mel'. cbn [activeModal elements overflow header_aria_hidden].
      rewrite Ha. intros [= <-]. rewrite lookup_insert_eq. intros [= <-].
      cbn [animationend _trap keydown]. intros _.
      split; [done|]. split; [by intros ->|].
      eexists. split; [reflexivity|]. apply elem_of_app. right.
      by apply list_elem_of_singleton.
    + destruct (chrome_resume_onEnd page m x s) as [_ Hchrome].
      rewrite Hk in Hchrome. destruct Hchrome as (Hnone & _).
      intros m' mel' Ha. by rewrite Hnone in Ha.
  - assert (activeModal (dispatch_animationend page m m s) = None) as Hnone.
    { eapply flush_with_close_empties_slot.
      - by rewrite (listeners_Some _ _ _ Hm), Hls.
      - by rewrite (listeners_Some _ _ _ Hm), Hls.
      - by rewrite (listeners_Some _ _ _ Hm), Hls. }
    intros m' mel' Ha. by rewrite Hnone in Ha.
Qed.

Lemma guarded_ext page s s' :
  elements s' = elements s → activeModal s' = activeModal s →
  overflow s' = overflow s → header_aria_hidden s' = header_aria_hidden s →
  guarded page s → guarded page s'.
Proof. unfold guarded. intros -> -> -> ->. done. Qed.

Lemma guarded_step page s e :
  consistent s → tidy page s → guarded page s →
  guarded page (step page s e).
Proof.
  intros Hc Ht Hg. destruct e as [key| |m target|key sh within|m target];
    cbn [step].
  - by apply guarded_openModal.
  - by apply guarded_closeModal.
  - destruct (target =? m); [|done]. by apply guarded_closeModal.
  - unfold dispatch_keydown.
    assert (guarded page
              match within with
              | Some modal => foldl (run_trap page key sh modal) s (traps modal s)
              | None => s
              end) as Hg'.
    { destruct within as [modal|]; [|done].
      destruct (frame_traps_run page key sh modal s (traps modal s))
        as (He & Ha & Ho & Hh & _).
      by apply (guarded_ext page s). }
    destruct (String.eqb key "Escape"); [|done].
    by apply guarded_closeModal.
  - destruct (decide (target = m)) as [->|Hne].
    + by apply guarded_dispatch_animationend.
    + by rewrite dispatch_animationend_bubbled.
Qed.

Lemma guarded_run page s es :
  consistent s → tidy page s → guarded page s →
  guarded page (run page s es).
Proof.
  revert s. unfold run.
  induction es as [|e es IH]; intros s Hc Ht Hg; cbn [foldl]; [done|].
  apply IH; [by apply consistent_step | by apply tidy_step |
             by apply guarded_step].
Qed.

(** An open dialog is always guarded: in every state reached from a page at
    rest, a dialog that sits in the slot with no transition pending has the
    page scroll locked, the header (when there is one) hidden from assistive
    technology, and the trap stored on its container registered as key
    handler. *)
Theorem open_dialog_is_guarded page s es m mel :
  at_rest s → overflow s = "" → header_aria_hidden s = None →
  let s' := run page s es in
  activeModal s' = Some m →
  elements s' !! m = Some mel →
  animationend mel = [] →
  overflow s' = "hidden"
  ∧ (has_header page = true → header_aria_hidden s' = Some "true")
  ∧ ∃ t, _trap mel = Some t ∧ t ∈ keydown mel.
Proof.
  intros Hrest Ho Hh. cbn zeta.
  apply (guarded_run page s es (at_rest_consistent s Hrest)
           (at_rest_tidy page s Hrest Ho Hh)).
  intros m' mel' Ha. destruct Hrest as [Hnone _]. congruence.
Qed.

Lemma open_dialog_is_guarded_witness :
  overflow
    (run demo_page demo_init
       [ClickOpen "login"; AnimationEnd 1 1; ClickOpen "register";
        KeyDown "Tab" true (Some 1)])
  = "hidden".
Proof.
  pose (mel := {| hidden := false; classes := ["modal"]; animationend := [];
                  keydown := [trap_for 1 (closed_modal login_descendants)];
                  _trap := Some (trap_for 1 (closed_modal login_descendants));
                  descendants := login_descendants |}).
  refine (proj1 (open_dialog_is_guarded demo_page demo_init
                   [ClickOpen "login"; AnimationEnd 1 1; ClickOpen "register";
                    KeyDown "Tab" true (Some 1)] 1 mel
                   demo_init_at_rest eq_refl eq_refl _ _ _)).
  - vm_compute. reflexivity.
  - vm_compute. reflexivity.
  - reflexivity.
Defined.

Lemma flush_single_close page m s mel c :
  elements s !! m = Some mel →
  animationend mel = [c] → l_kind c = Closing →
  activeModal (dispatch_animationend page m m s) = None.
Proof.
  intros Hm Hls Hk. unfold dispatch_animationend.
  rewrite (listeners_Some _ _ _ Hm), Hls. cbn [foldl].
  rewrite (run_onEnd_registered page m s c mel Hm) by (rewrite Hls; cbn; left).
  destruct (chrome_resume_onEnd page m c s) as [_ Hchrome].
  rewrite Hk in Hchrome |- *. by destruct Hchrome.
Qed.

(** The active dialog can always be closed: in every state reached from a
    page at rest, whatever led there (requests during a transition, repeated
    requests), a close request followed by the end of the transition on the
    container empties the slot, hides the container with nothing left
    pending on it, unlocks the page scroll and removes the header marker. *)
Theorem close_always_succeeds page s es m :
  at_rest s → overflow s = "" → header_aria_hidden s = None →
  let s' := run page s es in
  activeModal s' = Some m →
  is_Some (elements s' !! m) →
  let closed := run page s' [ClickClose; AnimationEnd m m] in
  activeModal closed = None
  ∧ is_hidden m closed = Some true
  ∧ listeners m closed = []
  ∧ overflow closed = ""
  ∧ header_aria_hidden closed = None.
Proof.
  intros Hrest Ho Hh. cbn zeta. intros Ha [mel Hm].
  destruct (tidy_run page s es (at_rest_consistent s Hrest)
              (at_rest_tidy page s Hrest Ho Hh)) as [Hc Ht].
  set (s' := run page s es) in *.
  pose proof (consistent_closeModal s' Hc) as Hc1.
  pose proof (tidy_closeModal page s' Ht) as Ht1.
  pose proof (consistent_step page _ (AnimationEnd m m) Hc1) as Hc2.
  pose proof (tidy_step page _ (AnimationEnd m m) Hc1 Ht1) as Ht2.
  unfold run. cbn [foldl step] in *.
  assert (activeModal (dispatch_animationend page m m (closeModal s')) = None)
    as Hnone.
  { destruct Ht1 as (Hlists & _ & _). revert Hlists.
    rewrite (closeModal_Some s' m mel Ha Hm). intros Hlists.
    destruct (Hlists m _ ltac:(cbn [elements]; apply lookup_insert_eq))
      as (Hhead & Hnd & _). cbn [animationend] in Hhead, Hnd.
    destruct (animationend mel) as [|x later] eqn:Hls.
    - eapply flush_single_close;
        [cbn [elements]; apply lookup_insert_eq|reflexivity|reflexivity].
    - destruct later as [|c rest].
      + eapply (flush_with_close_empties_slot page m _ x);
          erewrite listeners_Some
            by (cbn [elements]; apply lookup_insert_eq); cbn; try done.
      + eapply (flush_with_close_empties_slot page m _ x c);
          erewrite listeners_Some
            by (cbn [elements]; apply lookup_insert_eq); cbn; try done. }
  split; [done|].
  assert (is_Some (elements (dispatch_animationend page m m (closeModal s'))
                   !! m)) as [mel' Hm'].
  { pose proof (dispatch_animationend_settles page m (closeModal s')) as Hnil.
    destruct (elements (dispatch_animationend page m m (closeModal s')) !! m)
      as [mel'|] eqn:Hm'; [by eexists|].
    exfalso. revert Hm'. unfold dispatch_animationend.
    generalize (listeners m (closeModal s')). intros ls.
    assert (is_Some (elements (closeModal s') !! m)) as Hin.
    { rewrite (closeModal_Some s' m mel Ha Hm). cbn [elements].
      rewrite lookup_insert_eq. by eexists. }
    revert Hin. generalize (closeModal s'). intros s1. revert s1.
    induction ls as [|l ls IH]; intros s1 [mel1 Hin] Hout; cbn [foldl] in Hout.
    { congruence. }
    apply (IH (run_onEnd page m m s1 l)); [|done].
    unfold run_onEnd. destruct (bool_decide _); [|by eexists].
    rewrite Nat.eqb_refl. rewrite (onEnd_Some _ _ _ _ Hin).
    destruct (l_kind l); cbn [resume].
    - erewrite openModal_resume_Some
        by (cbn [elements]; apply lookup_insert_eq).
      cbn [elements]. rewrite lookup_insert_eq. by eexists.
    - rewrite elements_closeModal_resume. cbn [elements].
      rewrite lookup_insert_eq. by eexists. }
  split.
  { unfold is_hidden. rewrite Hm'. cbn.
    pose proof (consistent_idle _ m mel' Hc2 Hnone Hm') as Hidle.
    destruct (hidden mel') eqn:Hhid; [done|]. destruct Hidle. by left. }
  split; [apply dispatch_animationend_settles|].
  destruct Ht2 as (_ & Hrel & _). by apply Hrel.
Qed.

Lemma close_always_succeeds_witness :
  activeModal
    (run demo_page
       (run demo_page demo_init [ClickOpen "login"; ClickClose; ClickClose])
       [ClickClose; AnimationEnd 1 1])
  = None.
Proof.
  refine (proj1 (close_always_succeeds demo_page demo_init
                   [ClickOpen "login"; ClickClose; ClickClose] 1
                   demo_init_at_rest eq_refl eq_refl _ _)).
  - vm_compute. reflexivity.
  - vm_compute. by eexists.
Defined.

(** ** Toast *)

Lemma srLive_timers_drain msg ts n :
  srLive_timers n = ts ++ [msg] →
  let n' := Nat.iter (S (length ts)) srLive_timeout n in
  srLive n' = Some msg ∧ srLive_timers n' = [].
Proof.
  cbn zeta. revert n. induction ts as [|t ts IH]; intros n Hts.
  - cbn. unfold srLive_timeout. by rewrite Hts.
  - rewrite Nat.iter_succ_r. apply IH.
    unfold srLive_timeout. by rewrite Hts.
Qed.

(** A toast reaches the live region: when [#sr-toast] exists, [showToast]
    empties it at once and, when the pending timers have fired, it holds the
    message of this toast, whatever was pending before; [Swal.fire] is
    called once, with the message and the type, exactly when SweetAlert is
    loaded.  With neither SweetAlert nor live region, [showToast] does
    nothing. *)
Theorem showToast_reaches_live_region message type n :
  (∀ text,
     srLive n = Some text →
     let n' := showToast message type n in
     let settled := Nat.iter (length (srLive_timers n')) srLive_timeout n' in
     srLive n' = Some ""
     ∧ srLive settled = Some message
     ∧ srLive_timers settled = [])
  ∧ swal_fired (showToast message type n)
    = (if has_Swal n then [(message, type)] else []) ++ swal_fired n
  ∧ (has_Swal n = false → srLive n = None → showToast message type n = n).
Proof.
  split; [|split].
  - intros text Htext. cbn zeta.
    assert (srLive (showToast message type n) = Some ""
            ∧ srLive_timers (showToast message type n)
              = srLive_timers n ++ [message]) as [Hs Ht].
    { unfold showToast. destruct (has_Swal n); cbn; by rewrite Htext. }
    split; [done|]. rewrite Ht, length_app, Nat.add_1_r.
    by apply srLive_timers_drain.
  - unfold showToast.
    destruct (has_Swal n); cbn; by destruct (srLive n).
  - intros Hswal Hlive. unfold showToast. by rewrite Hswal, Hlive.
Qed.

Lemma showToast_reaches_live_region_witness :
  let n := {| has_Swal := false; swal_fired := []; srLive := Some "old";
              srLive_timers := ["earlier"] |} in
  srLive (srLive_timeout (srLive_timeout (showToast "Вхід виконано!" "success" n)))
  = Some "Вхід виконано!".
Proof.
  destruct (showToast_reaches_live_region "Вхід виконано!" "success"
              {| has_Swal := false; swal_fired := []; srLive := Some "old";
                 srLive_timers := ["earlier"] |}) as [H _].
  destruct (H "old" eq_refl) as (_ & Hsettled & _). exact Hsettled.
Defined.

(** ** Mobile menu *)

(** A click on the burger toggles the menu and keeps button and menu in
    step: when the menu exists the listener does not throw and leaves
    aria-expanded true with the menu shown, or false with the menu hidden;
    a button that is not expanded (attribute false or absent) opens the
    menu; and from a state in step two clicks lead back to it.  When the
    menu is missing the listener throws, after it has flipped the
    attribute. *)
Theorem burger_click_toggles mn :
  (∀ h,
     mobileMenu_hidden mn = Some h →
     let mn' := (burger_click mn).1 in
     (burger_click mn).2 = false
     ∧ (aria_expanded mn' = Some "true" ∧ mobileMenu_hidden mn' = Some false
        ∨ aria_expanded mn' = Some "false"
          ∧ mobileMenu_hidden mn' = Some true)
     ∧ (aria_expanded mn ≠ Some "true" →
        aria_expanded mn' = Some "true" ∧ mobileMenu_hidden mn' = Some false)
     ∧ (aria_expanded mn = Some "true" ∧ h = false
        ∨ aria_expanded mn = Some "false" ∧ h = true →
        (burger_click mn').1 = mn))
  ∧ (mobileMenu_hidden mn = None →
     (burger_click mn).2 = true
     ∧ aria_expanded (burger_click mn).1
       = Some (if bool_decide (aria_expanded mn = Some "true")
               then "false" else "true")).
Proof.
  split.
  - intros h Hh. cbn zeta. unfold burger_click. rewrite Hh. cbn.
    split; [done|]. case_bool_decide as Hexp; cbn.
    + split; [by right|]. split; [done|].
      intros [[_ ->]|[Hf _]]; [|congruence].
      destruct mn as [a hh]; cbn in Hexp, Hh; subst. reflexivity.
    + split; [by left|]. split; [done|].
      intros [[Ht _]|[Hf ->]]; [done|].
      destruct mn as [a hh]; cbn in Hf, Hh; subst. reflexivity.
  - intros Hnone. unfold burger_click. rewrite Hnone. cbn.
    split; [done|]. by case_bool_decide.
Qed.

Lemma burger_click_toggles_witness :
  let closed := {| aria_expanded := Some "false";
                   mobileMenu_hidden := Some true |} in
  (burger_click (burger_click closed).1).1 = closed.
Proof.
  destruct (burger_click_toggles
              {| aria_expanded := Some "false";
                 mobileMenu_hidden := Some true |}) as [H _].
  destruct (H true eq_refl) as (_ & _ & _ & Hback).
  apply Hback. right. split; reflexivity.
Defined.

(** ** Form submission *)

Lemma invalid_validateField rnd input :
  invalid (validateField rnd input)
  = bool_decide (is_Some (spec_first_failing (name input)
                            (trim (value input)))).
Proof.
  rewrite validateField_by_rules.
  destruct (spec_first_failing _ _) as [msg|].
  - by rewrite bool_decide_eq_true_2.
  - rewrite bool_decide_eq_false_2; [done|]. by intros [? ?].
Qed.

Lemma shown_message_validateField rnd input :
  is_Some (closest_field input) →
  shown_message (validateField rnd input)
  = spec_first_failing (name input) (trim (value input)).
Proof.
  intros [g Hg]. rewrite validateField_by_rules.
  destruct (spec_first_failing _ _) as [msg|].
  - by rewrite shown_message_setError, Hg.
  - apply shown_message_clearError.
Qed.

Lemma submit_hasError rnd inputs :
  existsb invalid (imap (λ i inp, validateField (rnd i) inp) inputs) = true
  ↔ ∃ i inp, inputs !! i = Some inp
             ∧ is_Some (spec_first_failing (name inp) (trim (value inp))).
Proof.
  rewrite existsb_exists. split.
  - intros (inp' & Hin & Hinv). apply list_elem_of_In in Hin.
    apply list_elem_of_lookup in Hin as [i Hi].
    rewrite list_lookup_imap in Hi.
    destruct (inputs !! i) as [inp|] eqn:Hinp; [|done].
    injection Hi as <-. exists i, inp. split; [done|].
    rewrite invalid_validateField in Hinv.
    by apply bool_decide_eq_true_1 in Hinv.
  - intros (i & inp & Hi & Hfail). exists (validateField (rnd i) inp). split.
    + apply list_elem_of_In, list_elem_of_lookup. exists i.
      by rewrite list_lookup_imap, Hi.
    + rewrite invalid_validateField. by apply bool_decide_eq_true_2.
Qed.

Lemma submit_inputs rnd form s i inp :
  form_inputs form !! i = Some inp →
  form_inputs (sub_form (submit rnd form s)) !! i
  = Some (validateField (rnd i) inp).
Proof.
  intros Hi. unfold submit. destruct (existsb _ _); cbn [sub_form form_inputs];
    by rewrite list_lookup_imap, Hi.
Qed.

(** Submitting a form in which a field fails its rules is blocked: the
    default action is prevented, no close request is made, so that the
    dialogs are exactly as they were, no toast is due, and the form is marked
    is-invalid until the timer fires.  Every input of the form has been
    validated: it is flagged invalid exactly when one of its rules fails, and
    a field in a group shows the message of its first failing rule and
    nothing when it passes. *)
Theorem submit_blocked_when_a_field_fails rnd form s :
  (∃ i inp, form_inputs form !! i = Some inp
            ∧ is_Some (spec_first_failing (name inp) (trim (value inp)))) →
  let r := submit rnd form s in
  sub_state r = s
  ∧ sub_prevented r = true
  ∧ sub_toast r = None
  ∧ "is-invalid" ∈ form_classList (sub_form r)
  ∧ ("is-invalid" ∉ form_classList (shake_timeout (sub_form r)))
  ∧ ∀ i inp,
      form_inputs form !! i = Some inp →
      ∃ inp',
        form_inputs (sub_form r) !! i = Some inp'
        ∧ invalid inp'
          = bool_decide (is_Some (spec_first_failing (name inp)
                                    (trim (value inp))))
        ∧ (is_Some (closest_field inp) →
           shown_message inp'
           = spec_first_failing (name inp) (trim (value inp))).
Proof.
  intros Hfail%(submit_hasError rnd). cbn zeta.
  split; [|split; [|split; [|split; [|split]]]].
  1-5: unfold submit; rewrite Hfail; cbn; try done.
  - apply elem_of_classList_add. by left.
  - by intros [? _]%elem_of_classList_remove.
  - intros i inp Hi. exists (validateField (rnd i) inp).
    split; [by apply submit_inputs|].
    split; [apply invalid_validateField|].
    apply shown_message_validateField.
Qed.

Lemma submit_blocked_when_a_field_fails_witness :
  let form := {| form_classList := ["form"];
                 form_inputs := [text_input "email" "ann@example.org";
                                 text_input "password" "short"];
                 form_in_register := false; form_timers := 0 |} in
  let opened := run demo_page demo_init [ClickOpen "login"; AnimationEnd 1 1] in
  sub_state (submit (λ _, []) form opened) = opened.
Proof.
  refine (proj1 (submit_blocked_when_a_field_fails (λ _, [])
                   {| form_classList := ["form"];
                      form_inputs := [text_input "email" "ann@example.org";
                                      text_input "password" "short"];
                      form_in_register := false; form_timers := 0 |}
                   (run demo_page demo_init
                      [ClickOpen "login"; AnimationEnd 1 1]) _)).
  exists 1, (text_input "password" "short"). split; [reflexivity|].
  vm_compute. by eexists.
Defined.


